(** * Cover-colour extractor: a shallow embedding of [color_extractor.cpp]

    The development follows
    [src/freeassetfilter/core/cpp_color_extractor/color_extractor.cpp]:
    the sRGB <-> CIELAB conversions, the CIEDE2000 colour difference, the
    K-Means clustering in Lab space and the palette selection of
    [extract_colors] and [extract_colors_from_numpy].

    Conventions of the embedding.
    - A C++ [float] is rendered as a real number ([R]); every [float]
      literal stands for the decimal it is written as, [M_PI] for [PI], and
      the [<cmath>] functions for their real counterparts.  Rounding,
      overflow to infinity and NaN are therefore outside the model.
    - [uint8_t] and [int] values are integers in [Z]; [int] arithmetic that
      the source performs on caller-controlled values is wrapped to 32 bits
      ([wrap32]), conversions to [size_t] are taken modulo [2^64].
    - Container sizes and indices that are bounded by a container length
      are natural numbers.
    - The random-number machinery of [<random>] is an interface
      ([RandomSource]); the generator state is threaded explicitly. *)

From Stdlib Require Import Reals Lra Lia ZArith List Permutation Sorted.
From stdpp Require Import base decidable list.
From Equations Require Import Equations.
Import ListNotations.

#[local] Open Scope R_scope.

(** ** Data structures *)

Record RGB := mkRGB { rgb_r : Z; rgb_g : Z; rgb_b : Z }.

Record Lab := mkLab { lab_L : R; lab_a : R; lab_b : R }.

Record Cluster := mkCluster { centroid : Lab; size : nat }.

(** [Lab()] and [RGB()], the default constructors. *)
Definition Lab0 : Lab := mkLab 0 0 0.
Definition RGB0 : RGB := mkRGB 0 0 0.

#[global] Instance Lab_inhabited : Inhabited Lab := populate Lab0.
#[global] Instance Cluster_inhabited : Inhabited Cluster := populate (mkCluster Lab0 0).

(** Comparisons of [float]s are decided on the reals. *)
#[global] Instance Rlt_decision (x y : R) : Decision (x < y) := Rlt_dec x y.
#[global] Instance Rle_decision (x y : R) : Decision (x <= y) := Rle_dec x y.
#[global] Instance Req_decision (x y : R) : Decision (x = y) := Req_dec_T x y.

(** ** Colour-space conversion *)

Module ColorSpace.

(** [std::cbrt]. *)
Definition cbrt (t : R) : R :=
  if decide (0 < t) then Rpower t (/ 3)
  else if decide (t < 0) then - Rpower (- t) (/ 3)
  else 0.

(** [gamma_correct]: sRGB to linear RGB. *)
Definition gamma_correct (c : R) : R :=
  if decide (0.04045 < c) then Rpower ((c + 0.055) / 1.055) 2.4
  else c / 12.92.

(** [gamma_uncorrect]: linear RGB to sRGB. *)
Definition gamma_uncorrect (c : R) : R :=
  if decide (0.0031308 < c) then 1.055 * Rpower c (1 / 2.4) - 0.055
  else 12.92 * c.

(** The lambda [f] of [rgb_to_lab]. *)
Definition lab_f (t : R) : R :=
  if decide (0.008856 < t) then cbrt t
  else 7.787 * t + 16 / 116.

(** The lambda [f_inv] of [lab_to_rgb]. *)
Definition lab_f_inv (t : R) : R :=
  let t3 := t * t * t in
  if decide (0.008856 < t3) then t3
  else (t - 16 / 116) / 7.787.

Definition rgb_to_lab (r g b : Z) : Lab :=
  let rf := IZR r / 255 in
  let gf := IZR g / 255 in
  let bf := IZR b / 255 in
  let rf := gamma_correct rf in
  let gf := gamma_correct gf in
  let bf := gamma_correct bf in
  let x := rf * 0.4124 + gf * 0.3576 + bf * 0.1805 in
  let y := rf * 0.2126 + gf * 0.7152 + bf * 0.0722 in
  let z := rf * 0.0193 + gf * 0.1192 + bf * 0.9505 in
  let x := x / 0.95047 in
  let y := y / 1.00000 in
  let z := z / 1.08883 in
  let fx := lab_f x in
  let fy := lab_f y in
  let fz := lab_f z in
  mkLab (116 * fy - 16) (500 * (fx - fy)) (200 * (fy - fz)).

(** [static_cast<uint8_t>(std::max(0.0f, std::min(1.0f, c)) * 255.0f + 0.5f)]:
    the operand lies in [[0.5, 255.5]], where truncation is the floor. *)
Definition to_uint8 (c : R) : Z :=
  Zfloor (Rmax 0 (Rmin 1 c) * 255 + 0.5).

Definition lab_to_rgb (lab : Lab) : RGB :=
  let fy := (lab_L lab + 16) / 116 in
  let fx := lab_a lab / 500 + fy in
  let fz := fy - lab_b lab / 200 in
  let x := lab_f_inv fx * 0.95047 in
  let y := lab_f_inv fy * 1.00000 in
  let z := lab_f_inv fz * 1.08883 in
  let rf := x * 3.2406 + y * -1.5372 + z * -0.4986 in
  let gf := x * -0.9689 + y * 1.8758 + z * 0.0415 in
  let bf := x * 0.0557 + y * -0.2040 + z * 1.0570 in
  let rf := gamma_uncorrect rf in
  let gf := gamma_uncorrect gf in
  let bf := gamma_uncorrect bf in
  mkRGB (to_uint8 rf) (to_uint8 gf) (to_uint8 bf).

End ColorSpace.

(** ** CIEDE2000 colour difference *)

Module Ciede2000.

(** [std::atan2] on the reals (the angle of the point [(x, y)], in
    [(-PI, PI]]; [0] at the origin). *)
Definition atan2 (y x : R) : R :=
  if decide (0 < x) then atan (y / x)
  else if decide (x < 0) then
    (if decide (0 <= y) then atan (y / x) + PI else atan (y / x) - PI)
  else if decide (0 < y) then PI / 2
  else if decide (y < 0) then - (PI / 2)
  else 0.

(** The lambda [atan2_deg]. *)
Definition atan2_deg (y x : R) : R :=
  let rad := atan2 y x in
  let deg := rad * 180 / PI in
  if decide (deg < 0) then deg + 360 else deg.

(** 25^7 *)
Definition pow25_7 : R := 6103515625.

(** The intermediate quantities of [ciede2000], in the order in which the
    source computes them. *)

Definition chroma (a b : R) : R := sqrt (a * a + b * b).

Definition G_factor (C1 C2 : R) : R :=
  let C_avg := (C1 + C2) / 2 in
  let C_avg7 := C_avg ^ 7 in
  0.5 * (1 - sqrt (C_avg7 / (C_avg7 + pow25_7))).

Definition delta_h_prime (C1_prime C2_prime h1_prime h2_prime : R) : R :=
  if decide (C1_prime * C2_prime = 0) then 0
  else
    let diff := h2_prime - h1_prime in
    if decide (Rabs diff <= 180) then diff
    else if decide (180 < diff) then diff - 360
    else diff + 360.

Definition h_avg_prime (C1_prime C2_prime h1_prime h2_prime : R) : R :=
  if decide (C1_prime * C2_prime = 0) then h1_prime + h2_prime
  else
    let sum := h1_prime + h2_prime in
    let diff := Rabs (h1_prime - h2_prime) in
    if decide (diff <= 180) then sum / 2
    else if decide (sum < 360) then (sum + 360) / 2
    else (sum - 360) / 2.

Definition T_weight (h_avg : R) : R :=
  let h_rad := h_avg * PI / 180 in
  1 - 0.17 * cos (h_rad - PI / 6)
    + 0.24 * cos (2 * h_rad)
    + 0.32 * cos (3 * h_rad + PI / 30)
    - 0.20 * cos (4 * h_rad - 1.099557).

Definition R_T_term (h_avg C_avg_prime : R) : R :=
  let delta_theta := 30 * exp (- ((h_avg - 275) / 25) ^ 2) in
  let C_avg_prime7 := C_avg_prime ^ 7 in
  let R_C := 2 * sqrt (C_avg_prime7 / (C_avg_prime7 + pow25_7)) in
  - sin (2 * delta_theta * PI / 180) * R_C.

Definition S_L_weight (L_avg : R) : R :=
  let L_avg_minus_50 := L_avg - 50 in
  1 + (0.015 * L_avg_minus_50 * L_avg_minus_50)
      / sqrt (20 + L_avg_minus_50 * L_avg_minus_50).

(** Everything [ciede2000] computes before the final square root. *)
Record terms := mkTerms {
  delta_L : R;   (* delta_L_prime / S_L *)
  delta_C : R;   (* delta_C_prime / S_C *)
  delta_H : R;   (* delta_H_prime / S_H *)
  R_T : R
}.

Definition ciede2000_terms (lab1 lab2 : Lab) : terms :=
  let L1 := lab_L lab1 in let a1 := lab_a lab1 in let b1 := lab_b lab1 in
  let L2 := lab_L lab2 in let a2 := lab_a lab2 in let b2 := lab_b lab2 in
  let C1 := chroma a1 b1 in
  let C2 := chroma a2 b2 in
  let G := G_factor C1 C2 in
  let a1_prime := a1 * (1 + G) in
  let a2_prime := a2 * (1 + G) in
  let C1_prime := chroma a1_prime b1 in
  let C2_prime := chroma a2_prime b2 in
  let h1_prime := atan2_deg b1 a1_prime in
  let h2_prime := atan2_deg b2 a2_prime in
  let delta_L_prime := L2 - L1 in
  let delta_C_prime := C2_prime - C1_prime in
  let dh := delta_h_prime C1_prime C2_prime h1_prime h2_prime in
  let delta_H_prime := 2 * sqrt (C1_prime * C2_prime) * sin (dh * PI / 360) in
  let L_avg := (L1 + L2) / 2 in
  let C_avg_prime := (C1_prime + C2_prime) / 2 in
  let h_avg := h_avg_prime C1_prime C2_prime h1_prime h2_prime in
  let T := T_weight h_avg in
  let S_L := S_L_weight L_avg in
  let S_C := 1 + 0.045 * C_avg_prime in
  let S_H := 1 + 0.015 * C_avg_prime * T in
  mkTerms (delta_L_prime / S_L) (delta_C_prime / S_C) (delta_H_prime / S_H)
          (R_T_term h_avg C_avg_prime).

(** The argument of the final [std::sqrt]. *)
Definition radicand (t : terms) : R :=
  delta_L t * delta_L t + delta_C t * delta_C t + delta_H t * delta_H t
  + R_T t * delta_C t * delta_H t.

Definition ciede2000 (lab1 lab2 : Lab) : R :=
  sqrt (radicand (ciede2000_terms lab1 lab2)).

End Ciede2000.

(** ** Machine integers and the input buffer *)

Module Int.

#[local] Open Scope Z_scope.

Definition INT_MAX : Z := 2 ^ 31 - 1.

(** Two's-complement wrap-around of an [int] result. *)
Definition wrap32 (z : Z) : Z := (z + 2 ^ 31) mod 2 ^ 32 - 2 ^ 31.

Definition int_add (x y : Z) : Z := wrap32 (x + y).
Definition int_mul (x y : Z) : Z := wrap32 (x * y).

(** [static_cast<size_t>] of an [int] (64-bit [size_t]). *)
Definition to_size_t (z : Z) : Z := z mod 2 ^ 64.

(** [for (int i = 0; i < n; ++i)]: the values [i] takes. *)
Definition range (n : Z) : list Z := map Z.of_nat (seq 0 (Z.to_nat n)).

End Int.

Module Buffer.

Import Int.
#[local] Open Scope Z_scope.

(** [i] is a position of the buffer [l]. *)
Definition in_buffer (l : list Z) (i : Z) : bool :=
  (0 <=? i) && (i <? Z.of_nat (length l)).

(** [p[i]] for a [const uint8_t* p] over the bytes [l]; a byte is a value in
    [0..255].  The source does not check [i]: a read outside the buffer has
    no defined value.  The entry points below test [in_buffer] for every
    read of their sampling loops and are [undefined] when one fails, so the
    [0] given here for such an index is never the result of a run. *)
Definition byte_at (l : list Z) (i : Z) : Z :=
  if i <? 0 then 0 else default 0 (l !! Z.to_nat i).

(** [*reinterpret_cast<const int*>(data + off)] on a little-endian machine. *)
Definition read_int (data : list Z) (off : Z) : Z :=
  wrap32 (byte_at data off
          + 2 ^ 8 * byte_at data (off + 1)
          + 2 ^ 16 * byte_at data (off + 2)
          + 2 ^ 24 * byte_at data (off + 3)).

End Buffer.

(** ** Results of [extract_colors] *)

Inductive invalid_reason :=
| empty_data        (* data_size == 0 *)
| bad_header        (* data_size < 8 *)
| bad_dimensions    (* width <= 0 || height <= 0 *)
| bad_channels.     (* channels is neither 3 nor 4 *)

(** Where the source has no defined behaviour. *)
Inductive undefined_reason :=
| division_by_zero      (* the divisor [width * height] is 0 *)
| read_out_of_bounds.   (* a byte is read outside the pixel buffer *)

Inductive error :=
| invalid_argument (why : invalid_reason)   (* std::invalid_argument *)
| insufficient_pixels                       (* the std::runtime_error *)
| length_error                              (* thrown by vector::reserve *)
| undefined (why : undefined_reason).       (* no exception: no defined result *)

(** The decoded image that the header and the buffer size describe. *)
Record Image := mkImage {
  width : Z;
  height : Z;
  channels : Z;
  pixels : list Z
}.

(** ** Pixel sampling *)

Module Sampler.

Import Int Buffer.
#[local] Open Scope Z_scope.

(** The input checks at the head of [extract_colors].  [width * height] is
    an [int] product converted to [size_t] for the division; the product of
    two positive extents can wrap to [0], and the division is then
    undefined. *)
Definition decode (data : list Z) : error + Image :=
  let data_size := Z.of_nat (length data) in
  if data_size =? 0 then inl (invalid_argument empty_data)
  else if data_size <? 8 then inl (invalid_argument bad_header)
  else
    let width := read_int data 0 in
    let height := read_int data 4 in
    let pixels := drop 8 data in
    let pixel_data_size := data_size - 8 in
    if (width <=? 0) || (height <=? 0) then inl (invalid_argument bad_dimensions)
    else
      let divisor := to_size_t (int_mul width height) in
      if divisor =? 0 then inl (undefined division_by_zero)
      else
        let channels := wrap32 (pixel_data_size / divisor) in
        if negb (channels =? 3) && negb (channels =? 4)
        then inl (invalid_argument bad_channels)
        else inr (mkImage width height channels pixels).

(** [std::vector<RGB>::max_size()] for a 3-byte element and a 64-bit
    [ptrdiff_t]; [scaled_pixels.reserve(target_width * target_height)]
    throws [std::length_error] above it, which is where a negative [int]
    product lands after its conversion to [size_t]. *)
Definition rgb_vector_max_size : Z := (2 ^ 63 - 1) / 3.

Definition reserve_rgb_throws (n : Z) : bool :=
  rgb_vector_max_size <? to_size_t n.

(** The offset of the source pixel that the resampling loop reads for the
    target position [(x, y)]. *)
Definition src_index (img : Image) (target_width target_height x y : Z) : Z :=
  let src_x := Z.quot (Int.int_mul x (width img)) target_width in
  let src_y := Z.quot (Int.int_mul y (height img)) target_height in
  Int.int_mul (Int.int_add (Int.int_mul src_y (width img)) src_x) (channels img).

(** The reads of the loop body at [(x, y)] lie inside the buffer:
    [pixels[src_idx]], [pixels[src_idx + 1]], [pixels[src_idx + 2]] and,
    with 4 channels, [pixels[src_idx + 3]]. *)
Definition reads_ok (img : Image) (target_width target_height x y : Z) : bool :=
  let src_idx := src_index img target_width target_height x y in
  in_buffer (pixels img) src_idx
  && in_buffer (pixels img) (int_add src_idx 1)
  && in_buffer (pixels img) (int_add src_idx 2)
  && (negb (channels img =? 4) || in_buffer (pixels img) (int_add src_idx 3)).

(** No iteration of the two nested resampling loops reads outside the
    buffer. *)
Definition reads_in_bounds (img : Image) (max_image_size : Z) : bool :=
  let target_width := Z.min (width img) max_image_size in
  let target_height := Z.min (height img) max_image_size in
  forallb (fun y => forallb (fun x => reads_ok img target_width target_height x y)
                            (range target_width))
          (range target_height).

(** The body of the resampling loop at [(x, y)]: [None] when the pixel is
    skipped by one of the two [continue]s. *)
Definition sample_pixel (img : Image) (target_width target_height x y : Z)
  : option RGB :=
  let src_x := Z.quot (int_mul x (width img)) target_width in
  let src_y := Z.quot (int_mul y (height img)) target_height in
  let src_idx := int_mul (int_add (int_mul src_y (width img)) src_x) (channels img) in
  let r := byte_at (pixels img) src_idx in
  let g := byte_at (pixels img) (int_add src_idx 1) in
  let b := byte_at (pixels img) (int_add src_idx 2) in
  if (channels img =? 4) && (byte_at (pixels img) (int_add src_idx 3) <? 128)
  then None
  else
    let brightness := Z.quot (r + g + b) 3 in
    if (240 <? brightness) || (brightness <? 20) then None
    else Some (mkRGB r g b).

(** [scaled_pixels] as it stands after the two nested loops, when these
    read inside the buffer. *)
Definition scaled_pixels (img : Image) (max_image_size : Z) : list RGB :=
  let target_width := Z.min (width img) max_image_size in
  let target_height := Z.min (height img) max_image_size in
  flat_map (fun y =>
              omap (fun x => sample_pixel img target_width target_height x y)
                   (range target_width))
           (range target_height).

End Sampler.

(** ** The random source *)

(** What the source uses of [<random>]: [std::random_device] (an entropy
    source owned by the environment), [std::mt19937] seeded from one draw of
    it, the three distributions and [std::shuffle].  The laws are the
    guarantees the C++ standard gives for them. *)
Class RandomSource := {
  entropy : Type;
  mt19937 : Type;
  (** [rd()] *)
  random_device : entropy -> Z * entropy;
  (** [std::mt19937 gen(seed)] *)
  seed_gen : Z -> mt19937;
  (** [std::uniform_int_distribution<size_t> dist(lo, hi); dist(gen)] *)
  uniform_int : nat -> nat -> mt19937 -> nat * mt19937;
  (** [std::uniform_real_distribution<float> dist(lo, hi); dist(gen)] *)
  uniform_real : R -> R -> mt19937 -> R * mt19937;
  (** [std::shuffle(v.begin(), v.end(), gen)] *)
  shuffle : forall A : Type, list A -> mt19937 -> list A * mt19937;
  uniform_int_range : forall lo hi g,
    (lo <= hi)%nat -> (lo <= (uniform_int lo hi g).1 <= hi)%nat;
  shuffle_Permutation : forall A (l : list A) g,
    Permutation (shuffle A l g).1 l
}.

Arguments shuffle {_ _} _ _.

(** ** K-Means clustering in Lab space *)

Module KMeans.

Import Ciede2000.

(** [std::numeric_limits<float>::max()] *)
Definition FLT_MAX : R := (2 - / 2 ^ 23) * 2 ^ 127.

(** The loop state of [kmeans_lab]. *)
Record state {RS : RandomSource} := mkState {
  centroids : list Lab;
  assignments : list nat;
  cluster_sizes : list nat;
  gen : mt19937
}.

Arguments mkState {RS} _ _ _ _.

Definition lab_add (c p : Lab) : Lab :=
  mkLab (lab_L c + lab_L p) (lab_a c + lab_a p) (lab_b c + lab_b p).

Definition lab_div (c : Lab) (n : nat) : Lab :=
  mkLab (lab_L c / INR n) (lab_a c / INR n) (lab_b c / INR n).

(** One round of the inner loop over [j]; [acc] is [(min_dist, closest)]. *)
Definition closest_step (centroids : list Lab) (p : Lab) (acc : R * nat)
    (j : nat) : R * nat :=
  let dist := ciede2000 p (centroids !!! j) in
  if decide (dist < acc.1) then (dist, j) else acc.

(** The inner loop: the index of the nearest centroid, the first one on
    ties, [0] when no distance is below [FLT_MAX]. *)
Definition closest (centroids : list Lab) (k : nat) (p : Lab) : nat :=
  (foldl (closest_step centroids p) (FLT_MAX, 0%nat) (seq 0 k)).2.

(** The assignment loop.  Its iterations write disjoint slots of
    [assignments]; [order] lists the indices [i] in the order in which the
    iterations run: [seq 0 (length pixels)] without OpenMP, any permutation
    of it under [#pragma omp parallel for]. *)
Definition assign_pass (order : list nat) (centroids : list Lab) (k : nat)
    (pixels : list Lab) (assignments : list nat) : list nat :=
  foldl (fun asg i => <[i := closest centroids k (pixels !!! i)]> asg)
        assignments order.

(** One round of the accumulation loop; [acc] is
    [(new_centroids, cluster_sizes)]. *)
Definition accumulate_step (pixels : list Lab) (assignments : list nat)
    (acc : list Lab * list nat) (i : nat) : list Lab * list nat :=
  let cluster := assignments !!! i in
  (alter (fun c => lab_add c (pixels !!! i)) cluster acc.1,
   alter S cluster acc.2).

(** The accumulation loop: per-cluster sums and populations. *)
Definition accumulate (k : nat) (pixels : list Lab) (assignments : list nat)
  : list Lab * list nat :=
  foldl (accumulate_step pixels assignments)
        (replicate k Lab0, replicate k 0%nat) (seq 0 (length pixels)).

Section WithRandom.

Context {RS : RandomSource}.

(** [pixels[dist(gen)]] with [dist(0, pixels.size() - 1)]. *)
Definition draw_pixel (pixels : list Lab) (g : mt19937) : Lab * mt19937 :=
  let d := uniform_int 0 (length pixels - 1) g in
  (pixels !!! d.1, d.2).

(** Random initialisation of the [k] centroids. *)
Fixpoint init_centroids (k : nat) (pixels : list Lab) (g : mt19937)
  : list Lab * mt19937 :=
  match k with
  | O => ([], g)
  | S k' =>
      let c := draw_pixel pixels g in
      let rest := init_centroids k' pixels c.2 in
      (c.1 :: rest.1, rest.2)
  end.

(** One round of the loop over [j] that turns sums into means and reseeds
    empty clusters; [acc] is [(new_centroids, gen)]. *)
Definition finish_step (pixels : list Lab) (cluster_sizes : list nat)
    (acc : list Lab * mt19937) (j : nat) : list Lab * mt19937 :=
  if decide (0 < cluster_sizes !!! j)%nat
  then (alter (fun c => lab_div c (cluster_sizes !!! j)) j acc.1, acc.2)
  else
    let c := draw_pixel pixels acc.2 in
    (<[j := c.1]> acc.1, c.2).

Definition finish_centroids (k : nat) (pixels : list Lab)
    (cluster_sizes : list nat) (sums : list Lab) (g : mt19937)
  : list Lab * mt19937 :=
  foldl (finish_step pixels cluster_sizes) (sums, g) (seq 0 k).

(** The convergence test. *)
Definition converged (k : nat) (centroids new_centroids : list Lab) : bool :=
  forallb (fun j =>
             negb (bool_decide
                     (1 < ciede2000 (centroids !!! j) (new_centroids !!! j))))
          (seq 0 k).

(** One iteration of the main loop; the flag tells whether it ends with
    [break]. *)
Definition iteration (order : list nat) (k : nat) (pixels : list Lab)
    (st : state) : state * bool :=
  let assignments := assign_pass order (centroids st) k pixels (assignments st) in
  let acc := accumulate k pixels assignments in
  let fin := finish_centroids k pixels acc.2 acc.1 (gen st) in
  (mkState fin.1 assignments acc.2 fin.2,
   converged k (centroids st) fin.1).

(** [for (int iter = 0; iter < max_iters; ++iter)], [todo] iterations left;
    [sched iter] is the order of the assignment loop in iteration [iter]. *)
Fixpoint loop (sched : nat -> list nat) (k : nat) (pixels : list Lab)
    (iter todo : nat) (st : state) : state :=
  match todo with
  | O => st
  | S todo' =>
      let r := iteration (sched iter) k pixels st in
      if r.2 then r.1 else loop sched k pixels (S iter) todo' r.1
  end.

(** The sequential order of the assignment loop. *)
Definition sequential (pixels : list Lab) : nat -> list nat :=
  fun _ => seq 0 (length pixels).

(** [kmeans_lab] past its guard, from the seeded generator [g], with the
    assignment loops ordered by [sched]. *)
Definition kmeans_seeded (sched : nat -> list nat) (g : mt19937)
    (pixels : list Lab) (k : nat) (max_iters : Z) : list Cluster :=
  let init := init_centroids k pixels g in
  let st0 := mkState init.1 (replicate (length pixels) 0%nat)
                     (replicate k 0%nat) init.2 in
  let st := loop sched k pixels 0 (Z.to_nat max_iters) st0 in
  map (fun j => mkCluster (centroids st !!! j) (cluster_sizes st !!! j))
      (seq 0 k).

(** [kmeans_lab] under a schedule: the generator is seeded from one draw
    of the random device. *)
Definition kmeans_lab_omp (sched : nat -> list nat) (e : entropy)
    (pixels : list Lab) (k max_iters : Z) : list Cluster * entropy :=
  if decide (pixels = [] \/ (k <= 0)%Z) then ([], e)
  else
    let rd := random_device e in
    (kmeans_seeded sched (seed_gen rd.1) pixels (Z.to_nat k) max_iters, rd.2).

(** [kmeans_lab] as compiled without OpenMP. *)
Definition kmeans_lab (e : entropy) (pixels : list Lab) (k max_iters : Z)
  : list Cluster * entropy :=
  kmeans_lab_omp (sequential pixels) e pixels k max_iters.

End WithRandom.

End KMeans.

(** ** Palette selection *)

Module Palette.

Import Int Ciede2000.

(** [std::vector<Lab>::max_size()] for a 12-byte element and a 64-bit
    [ptrdiff_t]; [reserve(n)] throws [std::length_error] above it. *)
Definition vector_max_size : Z := ((2 ^ 63 - 1) / 12)%Z.

Definition reserve_throws (num_colors : Z) : bool :=
  (vector_max_size <? to_size_t num_colors)%Z.

(** [std::sort] with the comparator [a.size > b.size], as the insertion
    sort that leaves clusters of equal size in their order. *)
Fixpoint insert_cluster (c : Cluster) (l : list Cluster) : list Cluster :=
  match l with
  | [] => [c]
  | d :: l' =>
      if (size d <=? size c)%nat then c :: d :: l'
      else d :: insert_cluster c l'
  end.

Definition sort_clusters (l : list Cluster) : list Cluster :=
  foldr insert_cluster [] l.

(** The flag [is_different]: no selected colour is closer than
    [threshold]. *)
Definition is_different (threshold : R) (c : Lab) (selected : list Lab) : bool :=
  forallb (fun s => negb (bool_decide (ciede2000 c s < threshold))) selected.

(** The flag [already_selected] of the second pass. *)
Definition already_selected (c : Lab) (selected : list Lab) : bool :=
  existsb (fun s => bool_decide (ciede2000 c s < 0.1)) selected.

(** [selected_colors.size() >= static_cast<size_t>(num_colors)] *)
Definition enough (num_colors : Z) (selected : list Lab) : bool :=
  (to_size_t num_colors <=? Z.of_nat (length selected))%Z.

(** Phase 1: the greedy walk over the sorted clusters. *)
Fixpoint phase1 (clusters : list Cluster) (num_colors : Z) (min_distance : R)
    (selected : list Lab) : list Lab :=
  match clusters with
  | [] => selected
  | cluster :: rest =>
      if enough num_colors selected then selected
      else
        phase1 rest num_colors min_distance
          (if is_different min_distance (centroid cluster) selected
           then selected ++ [centroid cluster] else selected)
  end.

(** Phase 2: the second walk, with the thresholds 0.1 and 10. *)
Fixpoint phase2_walk (clusters : list Cluster) (num_colors : Z)
    (selected : list Lab) : list Lab :=
  match clusters with
  | [] => selected
  | cluster :: rest =>
      if enough num_colors selected then selected
      else
        phase2_walk rest num_colors
          (if negb (already_selected (centroid cluster) selected)
              && is_different 10 (centroid cluster) selected
           then selected ++ [centroid cluster] else selected)
  end.

Definition phase2 (clusters : list Cluster) (num_colors : Z)
    (selected : list Lab) : list Lab :=
  if enough num_colors selected then selected
  else phase2_walk clusters num_colors selected.

(** The reflected mean [Lab(100 - avg_L, -avg_a, -avg_b)]. *)
Definition reflected_mean (selected : list Lab) : Lab :=
  let sum := foldl (fun avg c => mkLab (lab_L avg + lab_L c)
                                       (lab_a avg + lab_a c)
                                       (lab_b avg + lab_b c))
                   Lab0 selected in
  let n := INR (length selected) in
  mkLab (100 - lab_L sum / n) (- (lab_a sum / n)) (- (lab_b sum / n)).

Definition clamp (lo hi x : R) : R := Rmax lo (Rmin hi x).

Section WithRandom.

Context {RS : RandomSource}.

(** The candidate [new_lab] of one round of phase 3.  The three draws of
    the random branch are taken left to right. *)
Definition candidate (selected : list Lab) (g : mt19937) : Lab * mt19937 :=
  match selected with
  | [] =>
      let dL := uniform_real 20 80 g in
      let da := uniform_real (-100) 100 dL.2 in
      let db := uniform_real (-100) 100 da.2 in
      (mkLab dL.1 da.1 db.1, db.2)
  | _ :: _ => (reflected_mean selected, g)
  end.

(** The colour [perturbed], again with the draws taken left to right. *)
Definition perturbed (new_lab : Lab) (g : mt19937) : Lab * mt19937 :=
  let pL := uniform_real (-30) 30 g in
  let pa := uniform_real (-30) 30 pL.2 in
  let pb := uniform_real (-30) 30 pa.2 in
  (mkLab (clamp 0 100 (lab_L new_lab + pL.1))
         (clamp (-128) 127 (lab_a new_lab + pa.1 * 1.5))
         (clamp (-128) 127 (lab_b new_lab + pb.1 * 1.5)),
   pb.2).

(** The body of the [while] loop of phase 3. *)
Definition phase3_body (min_distance : R) (st : list Lab * mt19937)
  : list Lab * mt19937 :=
  let c := candidate st.1 st.2 in
  if is_different min_distance c.1 st.1 then (st.1 ++ [c.1], c.2)
  else
    let p := perturbed c.1 c.2 in
    (st.1 ++ [p.1], p.2).

(** Phase 3: [while (selected_colors.size() < static_cast<size_t>(num_colors))]. *)
Equations? phase3 (num_colors : Z) (min_distance : R) (st : list Lab * mt19937)
  : list Lab * mt19937
  by wf (Z.to_nat (to_size_t num_colors) - length st.1)%nat lt :=
  phase3 num_colors min_distance st
    with decide (Z.of_nat (length st.1) < to_size_t num_colors)%Z := {
    | left _ => phase3 num_colors min_distance (phase3_body min_distance st)
    | right _ => st }.
Proof.
  (* each round appends exactly one colour *)
  assert (Hlen : length (phase3_body min_distance (l0, m)).1 = S (length l0)).
  { unfold phase3_body.
    destruct (is_different _ _ _); cbn [fst snd];
      rewrite length_app; cbn [length]; lia. }
  rewrite Hlen. generalize dependent (to_size_t num_colors). intros; lia.
Qed.

End WithRandom.

End Palette.

(** ** The extraction entry point *)

Section Extract.

Context {RS : RandomSource}.

Import Int Sampler KMeans Palette.

Definition to_tuple (rgb : RGB) : Z * Z * Z := (rgb_r rgb, rgb_g rgb, rgb_b rgb).

(** The random subsampling to at most 5000 pixels. *)
Definition subsample (e : entropy) (scaled_pixels : list RGB)
  : list RGB * entropy :=
  if (5000 <? length scaled_pixels)%nat then
    let rd := random_device e in
    (take 5000 (shuffle scaled_pixels (seed_gen rd.1)).1, rd.2)
  else (scaled_pixels, e).

Definition extract_colors (e : entropy) (image_data : list Z) (num_colors : Z)
    (min_distance : R) (max_image_size : Z) : error + list (Z * Z * Z) :=
  match decode image_data with
  | inl err => inl err
  | inr img =>
      let target_width := Z.min (width img) max_image_size in
      let target_height := Z.min (height img) max_image_size in
      (* scaled_pixels.reserve(target_width * target_height) *)
      if reserve_rgb_throws (int_mul target_width target_height)
      then inl length_error
      (* the resampling loops index the buffer without a check *)
      else if negb (reads_in_bounds img max_image_size)
      then inl (undefined read_out_of_bounds)
      else
        let scaled := scaled_pixels img max_image_size in
        if (length scaled <? 10)%nat then inl insufficient_pixels
        else
          let sub := subsample e scaled in
          let lab_pixels :=
            map (fun rgb => ColorSpace.rgb_to_lab (rgb_r rgb) (rgb_g rgb) (rgb_b rgb))
                sub.1 in
          let km := kmeans_lab sub.2 lab_pixels 8 30 in
          let clusters := sort_clusters km.1 in
          (* selected_colors.reserve(num_colors) *)
          if reserve_throws num_colors then inl length_error
          else
            let selected := phase1 clusters num_colors min_distance [] in
            let selected := phase2 clusters num_colors selected in
            let rd := random_device km.2 in
            let selected :=
              (phase3 num_colors min_distance (selected, seed_gen rd.1)).1 in
            inr (map (fun lab => to_tuple (ColorSpace.lab_to_rgb lab))
                     (take (Z.to_nat (to_size_t num_colors)) selected))
  end.

End Extract.

(** ** The extraction entry point for arrays *)

Module Numpy.

Import Int Buffer.

(** What [extract_colors_from_numpy] reads of the [py::buffer_info] of its
    argument: the number of dimensions, the extents and the bytes. *)
Record ndarray := mkArray {
  ndim : Z;
  shape : list Z;
  buf : list Z
}.

Inductive array_invalid_reason :=
| bad_ndim              (* info.ndim != 3 *)
| bad_array_channels.   (* channels is neither 3 nor 4 *)

Inductive array_error :=
| array_invalid_argument (why : array_invalid_reason)  (* std::invalid_argument *)
| array_insufficient_pixels                            (* the std::runtime_error *)
| array_length_error                                   (* thrown by vector::reserve *)
| array_undefined.      (* a byte is read outside the buffer: no defined result *)

(** [for (int i = 0; i < n; i += step)]: the values [i] takes, at most
    [fuel] of them. *)
Fixpoint stride_from (fuel : nat) (i n step : Z) : list Z :=
  match fuel with
  | O => []
  | S fuel' =>
      if (i <? n)%Z then i :: stride_from fuel' (int_add i step) n step else []
  end.

(** The loop [for (int i = 0; i < n; i += std::max(1, n / 150))]; its step
    is at least 1, so [n] rounds exhaust it. *)
Definition strided (n : Z) : list Z :=
  stride_from (Z.to_nat n) 0 n (Z.max 1 (Z.quot n 150)).

(** The body of the sampling loop at [(x, y)]: [None] when the pixel is
    skipped by one of the two [continue]s. *)
Definition array_pixel (a : list Z) (width channels x y : Z) : option Lab :=
  let idx := int_mul (int_add (int_mul y width) x) channels in
  let r := byte_at a idx in
  let g := byte_at a (int_add idx 1) in
  let b := byte_at a (int_add idx 2) in
  if (channels =? 4)%Z && (byte_at a (int_add idx 3) <? 128)%Z then None
  else
    let brightness := Z.quot (r + g + b) 3 in
    if (240 <? brightness)%Z || (brightness <? 20)%Z then None
    else Some (ColorSpace.rgb_to_lab r g b).

(** [lab_pixels] as it stands after the two nested loops, when these read
    inside the buffer. *)
Definition array_pixels (a : list Z) (height width channels : Z) : list Lab :=
  flat_map (fun y => omap (fun x => array_pixel a width channels x y)
                          (strided width))
           (strided height).

(** The reads of the loop body at [(x, y)] lie inside the buffer:
    [pixels[idx]], [pixels[idx + 1]], [pixels[idx + 2]] and, with 4
    channels, [pixels[idx + 3]]. *)
Definition array_reads_ok (a : list Z) (width channels x y : Z) : bool :=
  let idx := int_mul (int_add (int_mul y width) x) channels in
  in_buffer a idx
  && in_buffer a (int_add idx 1)
  && in_buffer a (int_add idx 2)
  && (negb (channels =? 4)%Z || in_buffer a (int_add idx 3)).

(** No iteration of the two nested sampling loops reads outside the
    buffer. *)
Definition array_reads_in_bounds (a : list Z) (height width channels : Z) : bool :=
  forallb (fun y => forallb (fun x => array_reads_ok a width channels x y)
                            (strided width))
          (strided height).

Section WithRandom.

Context {RS : RandomSource}.

(** The random subsampling to at most 5000 samples. *)
Definition subsample_lab (e : entropy) (lab_pixels : list Lab)
  : list Lab * entropy :=
  if (5000 <? length lab_pixels)%nat then
    let rd := random_device e in
    (take 5000 (shuffle lab_pixels (seed_gen rd.1)).1, rd.2)
  else (lab_pixels, e).

(** The body of the [while] loop that fills the palette up; the three draws
    are taken left to right. *)
Definition fill_body (st : list Lab * mt19937) : list Lab * mt19937 :=
  let sum := foldl (fun avg c => mkLab (lab_L avg + lab_L c)
                                       (lab_a avg + lab_a c)
                                       (lab_b avg + lab_b c))
                   Lab0 st.1 in
  let n := INR (length st.1) in
  let avg_L := lab_L sum / n in
  let avg_a := lab_a sum / n in
  let avg_b := lab_b sum / n in
  let pL := uniform_real (-30) 30 st.2 in
  let pa := uniform_real (-30) 30 pL.2 in
  let pb := uniform_real (-30) 30 pa.2 in
  (st.1 ++ [mkLab (Palette.clamp 0 100 (100 - avg_L + pL.1))
                  (Palette.clamp (-128) 127 (- avg_a + pa.1 * 1.5))
                  (Palette.clamp (-128) 127 (- avg_b + pb.1 * 1.5))],
   pb.2).

(** [while (selected_colors.size() < static_cast<size_t>(num_colors))] *)
Equations? fill (num_colors : Z) (st : list Lab * mt19937)
  : list Lab * mt19937
  by wf (Z.to_nat (to_size_t num_colors) - length st.1)%nat lt :=
  fill num_colors st
    with decide (Z.of_nat (length st.1) < to_size_t num_colors)%Z := {
    | left _ => fill num_colors (fill_body st)
    | right _ => st }.
Proof.
  (* each round appends exactly one colour *)
  unfold fill_body. cbn [fst]. rewrite length_app. cbn [length].
  generalize dependent (to_size_t num_colors). intros; lia.
Qed.

Definition extract_colors_from_numpy (e : entropy) (image_array : ndarray)
    (num_colors : Z) (min_distance : R)
  : array_error + list (Z * Z * Z) :=
  if negb (ndim image_array =? 3)%Z
  then inl (array_invalid_argument bad_ndim)
  else
    let height := wrap32 (shape image_array !!! 0%nat) in
    let width := wrap32 (shape image_array !!! 1%nat) in
    let channels := wrap32 (shape image_array !!! 2%nat) in
    if negb (channels =? 3)%Z && negb (channels =? 4)%Z
    then inl (array_invalid_argument bad_array_channels)
    (* lab_pixels.reserve(width * height) *)
    else if Palette.reserve_throws (int_mul width height)
    then inl array_length_error
    (* the sampling loops index the buffer without a check *)
    else if negb (array_reads_in_bounds (buf image_array) height width channels)
    then inl array_undefined
    else
      let lab_pixels := array_pixels (buf image_array) height width channels in
      if (length lab_pixels <? 10)%nat then inl array_insufficient_pixels
      else
        let sub := subsample_lab e lab_pixels in
        let km := KMeans.kmeans_lab sub.2 sub.1 8 30 in
        let clusters := Palette.sort_clusters km.1 in
        (* selected_colors.reserve(num_colors) *)
        if Palette.reserve_throws num_colors then inl array_length_error
        else
          let selected := Palette.phase1 clusters num_colors min_distance [] in
          let rd := random_device km.2 in
          let selected := (fill num_colors (selected, seed_gen rd.1)).1 in
          inr (map (fun i => to_tuple
                               (ColorSpace.lab_to_rgb (selected !!! Z.to_nat i)))
                   (range num_colors)).

End WithRandom.

End Numpy.

(** ** Predicates used in the statements *)

Module Props.

Import Ciede2000 KMeans.

(** Pairwise diversity of a selection: colours at two different positions
    are at least [min_distance] apart. *)
Definition diverse (min_distance : R) (selected : list Lab) : Prop :=
  forall i j x y, i <> j -> selected !! i = Some x -> selected !! j = Some y ->
                  min_distance <= ciede2000 x y.

(** A colour inside the box to which phase 3 clamps. *)
Definition in_lab_box (c : Lab) : Prop :=
  0 <= lab_L c <= 100 /\ -128 <= lab_a c <= 127 /\ -128 <= lab_b c <= 127.

(** What holds of the loop state of [kmeans_lab] after every iteration. *)
Definition post {RS : RandomSource} (k : nat) (pixels : list Lab) (st : state)
  : Prop :=
  length (assignments st) = length pixels /\
  length (centroids st) = k /\
  length (cluster_sizes st) = k /\
  sum_list (cluster_sizes st) = length pixels /\
  forall j, (j < k)%nat -> cluster_sizes st !!! j = 0%nat ->
            centroids st !!! j ∈ pixels.

(** Every RGBA pixel of the buffer has alpha 0. *)
Fixpoint alpha_all_zero (pixels : list Z) : bool :=
  match pixels with
  | _ :: _ :: _ :: a :: rest => (a =? 0)%Z && alpha_all_zero rest
  | _ => true
  end.

(** A palette entry is a triple of [uint8_t] values. *)
Definition is_rgb_triple (t : Z * Z * Z) : Prop :=
  (0 <= t.1.1 <= 255 /\ 0 <= t.1.2 <= 255 /\ 0 <= t.2 <= 255)%Z.

(** The order in which [sort_clusters] puts two clusters. *)
Definition by_population (c d : Cluster) : Prop := (size d <= size c)%nat.

(** The state of the search after the centroids [0 .. m-1]. *)
Definition searched (centroids : list Lab) (p : Lab) (m : nat) (acc : R * nat)
  : Prop :=
  (forall j, (j < m)%nat -> (acc.1 <= ciede2000 p (centroids !!! j))%R) /\
  ((acc = (FLT_MAX, 0%nat) /\
    forall j, (j < m)%nat -> (FLT_MAX <= ciede2000 p (centroids !!! j))%R)
   \/ ((acc.2 < m)%nat /\ acc.1 = ciede2000 p (centroids !!! acc.2) /\
       (acc.1 < FLT_MAX)%R /\
       forall j, (j < acc.2)%nat -> (acc.1 < ciede2000 p (centroids !!! j))%R)).

(** The samples (by index) that [assignments] puts into cluster [j]. *)
Definition members (assignments : list nat) (j n : nat) : list nat :=
  filter (fun i => assignments !!! i = j) (seq 0 n).

(** No [int] product of the resampling overflows: the size of the image
    in bytes, the largest products [x * width] and [y * height], and the
    number of target pixels. *)
Definition no_overflow (img : Image) (m : Z) : Prop :=
  (width img * height img * channels img <= Int.INT_MAX /\
   Z.min (width img) m * width img <= Int.INT_MAX /\
   Z.min (height img) m * height img <= Int.INT_MAX /\
   Z.min (width img) m * Z.min (height img) m <= Int.INT_MAX)%Z.

(** The filters in the words of the specification.  Channel [i] of the
    source pixel that nearest-neighbour resampling to [tw x th] picks for
    the target position [(x, y)]: *)
Definition resampled (img : Image) (tw th x y i : Z) : Z :=
  let src_x := Z.quot (x * width img) tw in
  let src_y := Z.quot (y * height img) th in
  default 0%Z
    (pixels img !! Z.to_nat ((src_y * width img + src_x) * channels img + i)).

(** that pixel survives the alpha filter (alpha below 128 is dropped when
    there are 4 channels) and the brightness filter ([(r + g + b) / 3] above
    240 or below 20 is dropped). *)
Definition survives (img : Image) (tw th : Z) (p : Z * Z) : bool :=
  let r := resampled img tw th p.1 p.2 0 in
  let g := resampled img tw th p.1 p.2 1 in
  let b := resampled img tw th p.1 p.2 2 in
  let alpha := resampled img tw th p.1 p.2 3 in
  negb ((channels img =? 4)%Z && (alpha <? 128)%Z)
  && negb ((240 <? Z.quot (r + g + b) 3)%Z || (Z.quot (r + g + b) 3 <? 20)%Z).

(** The target positions, row by row. *)
Definition targets (tw th : Z) : list (Z * Z) :=
  flat_map (fun y => map (fun x => (x, y)) (Int.range tw)) (Int.range th).

(** The number of resampled pixels that survive the two filters. *)
Definition survivors (img : Image) (m : Z) : nat :=
  let tw := Z.min (width img) m in
  let th := Z.min (height img) m in
  length (List.filter (survives img tw th) (targets tw th)).

(** An array whose extents and size in bytes fit an [int] and whose buffer
    holds [height * width * channels] bytes. *)
Definition array_fits (a : Numpy.ndarray) : Prop :=
  let h := Numpy.shape a !!! 0%nat in
  let w := Numpy.shape a !!! 1%nat in
  let c := Numpy.shape a !!! 2%nat in
  (0 <= h <= 2000000000 /\ 0 <= w <= 2000000000 /\ (c = 3 \/ c = 4) /\
   h * w * c <= Int.INT_MAX /\
   h * w * c <= Z.of_nat (length (Numpy.buf a)))%Z.

(** The Lab samples that [extract_colors] clusters, and the clusters in
    the order in which the selection walks them. *)
Definition lab_samples {RS : RandomSource} (e : entropy) (img : Image) (m : Z) : list Lab :=
  map (fun rgb => ColorSpace.rgb_to_lab (rgb_r rgb) (rgb_g rgb) (rgb_b rgb))
      (subsample e (Sampler.scaled_pixels img m)).1.

Definition sorted_clusters {RS : RandomSource} (e : entropy) (img : Image) (m : Z) : list Cluster :=
  Palette.sort_clusters
    (kmeans_lab (subsample e (Sampler.scaled_pixels img m)).2 (lab_samples e img m) 8 30).1.

(** The smallest base of the power branch of [gamma_correct] on 8-bit
    inputs, reached at the channel value 11. *)
Definition X11 : R := (11 / 255 + 0.055) / 1.055.

End Props.

(** ** A concrete random source *)

(** A deterministic source driven by a counter; it shows that the
    interface [RandomSource] is inhabited and instantiates it in the
    examples. *)
Module CounterSource.

Definition counter_uniform_int (lo hi : nat) (g : Z) : nat * Z :=
  ((lo + Z.to_nat g mod (hi - lo + 1))%nat, (g + 1)%Z).

Definition counter_uniform_real (lo hi : R) (g : Z) : R * Z := (lo, (g + 1)%Z).

Definition counter_shuffle (A : Type) (l : list A) (g : Z) : list A * Z :=
  (rev l, (g + 1)%Z).

Definition counter_source : RandomSource := {|
  entropy := Z;
  mt19937 := Z;
  random_device := fun e => (e, (e + 1)%Z);
  seed_gen := fun s => s;
  uniform_int := counter_uniform_int;
  uniform_real := counter_uniform_real;
  shuffle := counter_shuffle;
  uniform_int_range := fun lo hi g H =>
    ltac:(unfold counter_uniform_int; cbn [fst];
          pose proof (Nat.mod_upper_bound (Z.to_nat g) (hi - lo + 1)); lia);
  shuffle_Permutation := fun A l g =>
    Permutation_sym (Permutation_rev l)
|}.

End CounterSource.

(** ** Example inputs *)

Module Examples.

(** A 10x1 RGB image of mid-grey pixels, with its 8-byte header. *)
Definition grey_image : list Z :=
  [10; 0; 0; 0; 1; 0; 0; 0]%Z ++ replicate 30 128%Z.

Definition grey_decoded : Image := mkImage 10 1 3 (replicate 30 128%Z).

(** A 2x2 RGBA image of fully transparent red pixels. *)
Definition transparent_image : list Z :=
  [2; 0; 0; 0; 2; 0; 0; 0;
   255; 0; 0; 0; 255; 0; 0; 0; 255; 0; 0; 0; 255; 0; 0; 0]%Z.

Definition transparent_decoded : Image :=
  mkImage 2 2 4 [255; 0; 0; 0; 255; 0; 0; 0; 255; 0; 0; 0; 255; 0; 0; 0]%Z.

(** A 2x2 RGB image of black pixels. *)
Definition dark_image : list Z :=
  [2; 0; 0; 0; 2; 0; 0; 0]%Z ++ replicate 12 0%Z.

Definition dark_decoded : Image := mkImage 2 2 3 (replicate 12 0%Z).

(** A 1x10 RGB array of mid-grey pixels. *)
Definition grey_array : Numpy.ndarray :=
  Numpy.mkArray 3 [1; 10; 3]%Z (replicate 30 128%Z).

(** Two Lab samples. *)
Definition two_samples : list Lab := [mkLab 50 0 0; mkLab 60 10 10].

End Examples.

(** * Properties *)

(** ** Colour-space conversion *)

Module ColorSpaceFacts.
Import ColorSpace Props.

(** *** Powers with real exponents *)

Lemma Rpower_pos x y : 0 < Rpower x y.
Proof. unfold Rpower. apply exp_pos. Qed.

Lemma Rpower_one_base y : Rpower 1 y = 1.
Proof. unfold Rpower. now rewrite ln_1, Rmult_0_r, exp_0. Qed.

Lemma exp_le x y : x <= y -> exp x <= exp y.
Proof.
  intros [H| ->]; [left; now apply exp_increasing | right; reflexivity].
Qed.

Lemma ln_le_0 x : 0 < x -> x <= 1 -> ln x <= 0.
Proof.
  intros Hx [H| ->]; [|rewrite ln_1; lra].
  rewrite <- ln_1. left. now apply ln_increasing.
Qed.

Lemma ln_ge_0 x : 1 <= x -> 0 <= ln x.
Proof.
  intros [H| <-]; [|rewrite ln_1; lra].
  rewrite <- ln_1. left. apply ln_increasing; lra.
Qed.

(** For an exponent [p] in [[0,1]], [x^p] lies between [1] and [x]. *)
Lemma Rpower_between x p :
  0 < x -> 0 <= p <= 1 -> Rmin 1 x <= Rpower x p <= Rmax 1 x.
Proof.
  intros Hx Hp. unfold Rpower.
  destruct (Rle_lt_dec 1 x) as [Hge|Hlt].
  - rewrite Rmin_left, Rmax_right by lra.
    pose proof (ln_ge_0 x Hge) as Hl. split.
    + rewrite <- exp_0. apply exp_le. nra.
    + apply Rle_trans with (exp (ln x)); [apply exp_le; nra|].
      rewrite exp_ln by exact Hx. lra.
  - rewrite Rmin_right, Rmax_left by lra.
    pose proof (ln_le_0 x Hx ltac:(lra)) as Hl. split.
    + apply Rle_trans with (exp (ln x)); [|apply exp_le; nra].
      rewrite exp_ln by exact Hx. lra.
    + rewrite <- exp_0. apply exp_le. nra.
Qed.

(** [(x^(n/5))^5 = x^n] *)
Lemma Rpower_fifth x (n : nat) : 0 < x -> Rpower x (INR n / 5) ^ 5 = x ^ n.
Proof.
  intros Hx. rewrite <- (Rpower_pow 5) by apply Rpower_pos.
  rewrite Rpower_mult. replace (INR n / 5 * INR 5) with (INR n).
  - now apply Rpower_pow.
  - assert (H5 : INR 5 = 5) by (simpl; lra). rewrite H5. field.
Qed.

(** A lower bound on [x^(n/5)] from one on [x^n]. *)
Lemma Rpower_fifth_lower x q (n : nat) :
  0 < x -> 0 <= q -> q ^ 5 < x ^ n -> q <= Rpower x (INR n / 5).
Proof.
  intros Hx Hq Hlt.
  destruct (Rle_lt_dec q (Rpower x (INR n / 5))) as [H|H]; [exact H|].
  exfalso. pose proof (Rpower_pos x (INR n / 5)) as Hp.
  assert (Rpower x (INR n / 5) ^ 5 <= q ^ 5) by (apply pow_incr; lra).
  rewrite Rpower_fifth in * by exact Hx. lra.
Qed.

(** *** The gamma curves *)

Lemma gamma_correct_range t : 0 <= t <= 1 -> 0 <= gamma_correct t <= 1.
Proof.
  intros Ht. unfold gamma_correct. destruct (decide _) as [Hhi|Hlo].
  - split; [left; apply Rpower_pos|].
    rewrite <- (Rpower_one_base 2.4). apply Rle_Rpower_l; [lra|].
    split; [|lra]. apply Rdiv_lt_0_compat; lra.
  - lra.
Qed.

Lemma X11_pow7 : 0.0359 ^ 5 < X11 ^ 7.
Proof. unfold X11. cbn [pow]. lra. Qed.

Lemma Rpower_14_lower X : X11 <= X -> 0.0359 <= Rpower X 1.4.
Proof.
  intros HX. assert (0 < X11) by (unfold X11; lra).
  replace 1.4 with (INR 7 / 5) by (simpl; lra).
  apply Rpower_fifth_lower; [lra | lra |].
  apply Rlt_le_trans with (X11 ^ 7); [apply X11_pow7|].
  apply pow_incr. lra.
Qed.

(** [gamma_uncorrect] undoes [gamma_correct] on an 8-bit channel, and does
    so stably: a perturbation of the linear value by at most [0.00008]
    moves the result by at most [0.003]. *)
Lemma gamma_round_trip_stable (c : Z) v :
  (0 <= c <= 255)%Z ->
  -0.00008 <= v - gamma_correct (IZR c / 255) <= 0.00008 ->
  -0.003 <= gamma_uncorrect v - IZR c / 255 <= 0.003.
Proof.
  intros Hc Hv.
  destruct (Z_le_gt_dec c 10) as [Hlo|Hhi].
  - (* the linear segment *)
    assert (0 <= IZR c <= 10) by (split; apply IZR_le; lia).
    unfold gamma_correct in Hv.
    destruct (decide (0.04045 < IZR c / 255)) as [?|_]; [lra|].
    unfold gamma_uncorrect.
    destruct (decide (0.0031308 < v)) as [?|_]; lra.
  - (* the power segment *)
    assert (11 <= IZR c <= 255) by (split; apply IZR_le; lia).
    unfold gamma_correct in Hv.
    destruct (decide (0.04045 < IZR c / 255)) as [_|?]; [|lra].
    set (X := (IZR c / 255 + 0.055) / 1.055) in *.
    assert (HX : X11 <= X <= 1) by (unfold X, X11; lra).
    assert (HX0 : 0 < X) by (unfold X11 in HX; lra).
    pose proof (Rpower_14_lower X (proj1 HX)) as H14.
    assert (Hu : Rpower X 2.4 = X * Rpower X 1.4).
    { replace 2.4 with (1 + 1.4) by lra.
      now rewrite Rpower_plus, Rpower_1. }
    set (u := Rpower X 2.4) in *. set (P := Rpower X 1.4) in *.
    assert (Hu0 : 0.0033 <= u).
    { rewrite Hu. unfold X11 in HX. nra. }
    assert (Hup : Rpower u (1 / 2.4) = X).
    { unfold u. rewrite Rpower_mult.
      replace (2.4 * (1 / 2.4)) with 1 by lra. now apply Rpower_1. }
    unfold gamma_uncorrect.
    destruct (decide (0.0031308 < v)) as [_|?]; [|lra].
    assert (Hv0 : 0 < v) by lra.
    set (rho := v / u).
    assert (Hrho0 : 0 < rho) by (apply Rdiv_lt_0_compat; lra).
    assert (Hvr : v = u * rho) by (unfold rho; field; lra).
    assert (Hpow : Rpower v (1 / 2.4) = X * Rpower rho (1 / 2.4)).
    { rewrite Hvr at 1. rewrite <- Rpower_mult_distr by lra. now rewrite Hup. }
    pose proof (Rpower_between rho (1 / 2.4) Hrho0 ltac:(lra)) as Hb.
    rewrite Hpow.
    assert (Hc255 : IZR c / 255 = 1.055 * X - 0.055) by (unfold X; lra).
    rewrite Hc255.
    (* [X * |rho - 1| = |v - u| / P] *)
    assert (HXr : X * (rho - 1) = (v - u) / P).
    { unfold rho. rewrite Hu. field. split; lra. }
    assert (Hq : -0.00223 <= (v - u) / P <= 0.00223).
    { assert (HP : 0 < P) by lra.
      split.
      - apply (Rmult_le_reg_r P); [exact HP|].
        unfold Rdiv. rewrite Rmult_assoc, Rinv_l by lra. nra.
      - apply (Rmult_le_reg_r P); [exact HP|].
        unfold Rdiv. rewrite Rmult_assoc, Rinv_l by lra. nra. }
    set (w := Rpower rho (1 / 2.4)) in *.
    unfold Rmin, Rmax in Hb.
    destruct (Rle_dec 1 rho); nra.
Qed.

(** The final rounding recovers the channel up to one unit. *)
Lemma to_uint8_near (c : Z) y :
  (0 <= c <= 255)%Z -> -0.003 <= y - IZR c / 255 <= 0.003 ->
  (c - 1 <= to_uint8 y <= c + 1)%Z.
Proof.
  intros Hc Hy.
  assert (0 <= IZR c <= 255) by (split; apply IZR_le; lia).
  unfold to_uint8.
  set (y' := Rmax 0 (Rmin 1 y)).
  assert (Hy' : -0.003 <= y' - IZR c / 255 <= 0.003).
  { unfold y', Rmax, Rmin. repeat (destruct (Rle_dec _ _)); lra. }
  split.
  - apply Zfloor_lub. rewrite minus_IZR. lra.
  - pose proof (Zfloor_bound (y' * 255 + 0.5)) as [Hlo _].
    apply Z.lt_succ_r. apply lt_IZR. rewrite succ_IZR, plus_IZR. lra.
Qed.

(** *** The CIE nonlinearity *)

Lemma cbrt_cube t : 0 < t -> cbrt t * cbrt t * cbrt t = t.
Proof.
  intros Ht. unfold cbrt. destruct (decide (0 < t)) as [_|?]; [|lra].
  rewrite <- !Rpower_plus. replace (/ 3 + / 3 + / 3) with 1 by lra.
  now apply Rpower_1.
Qed.

(** [f_inv] undoes [f] on every non-negative argument. *)
Lemma lab_f_inv_f t : 0 <= t -> lab_f_inv (lab_f t) = t.
Proof.
  intros Ht. unfold lab_f, lab_f_inv.
  destruct (decide (0.008856 < t)) as [Hhi|Hlo].
  - cbv zeta. rewrite cbrt_cube by lra.
    destruct (decide (0.008856 < t)) as [_|?]; [reflexivity | lra].
  - cbv zeta. set (s := 7.787 * t + 16 / 116).
    assert (Hs : 0 <= s <= 7.787 * 0.008856 + 16 / 116) by (unfold s; lra).
    assert (Hs3 : s * s * s <= 0.008856).
    { apply Rle_trans with
        ((7.787 * 0.008856 + 16 / 116) * (7.787 * 0.008856 + 16 / 116)
         * (7.787 * 0.008856 + 16 / 116)); [|lra].
      assert (0 <= s * s) by nra.
      assert (s * s <= (7.787 * 0.008856 + 16 / 116) * (7.787 * 0.008856 + 16 / 116))
        by nra.
      nra. }
    destruct (decide (0.008856 < s * s * s)) as [?|_]; [lra|].
    unfold s. lra.
Qed.

(** *** The round trip *)

(** In exact arithmetic, [lab_to_rgb] after [rgb_to_lab] applies
    [gamma_uncorrect] to the linear channels pushed through the product of
    the two 3x3 matrices, which differs from the identity only by the
    rounding of their entries to four decimals. *)
Lemma lab_to_rgb_rgb_to_lab r g b :
  (0 <= r <= 255)%Z -> (0 <= g <= 255)%Z -> (0 <= b <= 255)%Z ->
  let ur := gamma_correct (IZR r / 255) in
  let ug := gamma_correct (IZR g / 255) in
  let ub := gamma_correct (IZR b / 255) in
  let x := ur * 0.4124 + ug * 0.3576 + ub * 0.1805 in
  let y := ur * 0.2126 + ug * 0.7152 + ub * 0.0722 in
  let z := ur * 0.0193 + ug * 0.1192 + ub * 0.9505 in
  lab_to_rgb (rgb_to_lab r g b) =
  mkRGB (to_uint8 (gamma_uncorrect (x * 3.2406 + y * -1.5372 + z * -0.4986)))
        (to_uint8 (gamma_uncorrect (x * -0.9689 + y * 1.8758 + z * 0.0415)))
        (to_uint8 (gamma_uncorrect (x * 0.0557 + y * -0.2040 + z * 1.0570))).
Proof.
  intros Hr Hg Hb. cbv zeta.
  assert (Hir : 0 <= IZR r / 255 <= 1).
  { assert (0 <= IZR r <= 255) by (split; apply IZR_le; lia). lra. }
  assert (Hig : 0 <= IZR g / 255 <= 1).
  { assert (0 <= IZR g <= 255) by (split; apply IZR_le; lia). lra. }
  assert (Hib : 0 <= IZR b / 255 <= 1).
  { assert (0 <= IZR b <= 255) by (split; apply IZR_le; lia). lra. }
  pose proof (gamma_correct_range _ Hir) as Hur.
  pose proof (gamma_correct_range _ Hig) as Hug.
  pose proof (gamma_correct_range _ Hib) as Hub.
  unfold rgb_to_lab. cbv zeta.
  set (ur := gamma_correct (IZR r / 255)) in *.
  set (ug := gamma_correct (IZR g / 255)) in *.
  set (ub := gamma_correct (IZR b / 255)) in *.
  set (x := ur * 0.4124 + ug * 0.3576 + ub * 0.1805).
  set (y := ur * 0.2126 + ug * 0.7152 + ub * 0.0722).
  set (z := ur * 0.0193 + ug * 0.1192 + ub * 0.9505).
  set (fx := lab_f (x / 0.95047)).
  set (fy := lab_f (y / 1.00000)).
  set (fz := lab_f (z / 1.08883)).
  unfold lab_to_rgb. cbv zeta. cbn [lab_L lab_a lab_b].
  replace ((116 * fy - 16 + 16) / 116) with fy by lra.
  replace (500 * (fx - fy) / 500 + fy) with fx by lra.
  replace (fy - 200 * (fy - fz) / 200) with fz by lra.
  unfold fx, fy, fz.
  rewrite !lab_f_inv_f by (unfold x, y, z; lra).
  replace (x / 0.95047 * 0.95047) with x by lra.
  replace (y / 1.00000 * 1.00000) with y by lra.
  replace (z / 1.08883 * 1.08883) with z by lra.
  reflexivity.
Qed.

(** C2: for every 8-bit triple [(r,g,b)], converting to Lab and back
    yields a triple that differs from [(r,g,b)] by at most 1 in each
    channel. *)
Theorem lab_rgb_round_trip r g b :
  (0 <= r <= 255)%Z -> (0 <= g <= 255)%Z -> (0 <= b <= 255)%Z ->
  let rgb := lab_to_rgb (rgb_to_lab r g b) in
  (Z.abs (rgb_r rgb - r) <= 1 /\ Z.abs (rgb_g rgb - g) <= 1 /\
   Z.abs (rgb_b rgb - b) <= 1)%Z.
Proof.
  intros Hr Hg Hb. cbv zeta.
  rewrite lab_to_rgb_rgb_to_lab by assumption. cbv zeta. cbn [rgb_r rgb_g rgb_b].
  assert (Hir : 0 <= IZR r / 255 <= 1).
  { assert (0 <= IZR r <= 255) by (split; apply IZR_le; lia). lra. }
  assert (Hig : 0 <= IZR g / 255 <= 1).
  { assert (0 <= IZR g <= 255) by (split; apply IZR_le; lia). lra. }
  assert (Hib : 0 <= IZR b / 255 <= 1).
  { assert (0 <= IZR b <= 255) by (split; apply IZR_le; lia). lra. }
  pose proof (gamma_correct_range _ Hir) as Hur.
  pose proof (gamma_correct_range _ Hig) as Hug.
  pose proof (gamma_correct_range _ Hib) as Hub.
  set (ur := gamma_correct (IZR r / 255)) in *.
  set (ug := gamma_correct (IZR g / 255)) in *.
  set (ub := gamma_correct (IZR b / 255)) in *.
  repeat split; apply Z.abs_le.
  - pose proof (to_uint8_near r _ Hr
                  (gamma_round_trip_stable r _ Hr
                     (ltac:(fold ur; lra) : -0.00008 <= (ur * 0.4124 + ug * 0.3576 + ub * 0.1805) * 3.2406 + (ur * 0.2126 + ug * 0.7152 + ub * 0.0722) * -1.5372 + (ur * 0.0193 + ug * 0.1192 + ub * 0.9505) * -0.4986 - gamma_correct (IZR r / 255) <= 0.00008))).
    lia.
  - pose proof (to_uint8_near g _ Hg
                  (gamma_round_trip_stable g _ Hg
                     (ltac:(fold ug; lra) : -0.00008 <= (ur * 0.4124 + ug * 0.3576 + ub * 0.1805) * -0.9689 + (ur * 0.2126 + ug * 0.7152 + ub * 0.0722) * 1.8758 + (ur * 0.0193 + ug * 0.1192 + ub * 0.9505) * 0.0415 - gamma_correct (IZR g / 255) <= 0.00008))).
    lia.
  - pose proof (to_uint8_near b _ Hb
                  (gamma_round_trip_stable b _ Hb
                     (ltac:(fold ub; lra) : -0.00008 <= (ur * 0.4124 + ug * 0.3576 + ub * 0.1805) * 0.0557 + (ur * 0.2126 + ug * 0.7152 + ub * 0.0722) * -0.2040 + (ur * 0.0193 + ug * 0.1192 + ub * 0.9505) * 1.0570 - gamma_correct (IZR b / 255) <= 0.00008))).
    lia.
Qed.

Lemma lab_rgb_round_trip_witness :
  let rgb := lab_to_rgb (rgb_to_lab 200 100 7) in
  (Z.abs (rgb_r rgb - 200) <= 1 /\ Z.abs (rgb_g rgb - 100) <= 1 /\
   Z.abs (rgb_b rgb - 7) <= 1)%Z.
Proof.
  apply (lab_rgb_round_trip 200 100 7); lia.
Defined.

End ColorSpaceFacts.

(** ** CIEDE2000 *)

Module Ciede2000Facts.
Import Ciede2000.

Lemma G_factor_comm C1 C2 : G_factor C1 C2 = G_factor C2 C1.
Proof. unfold G_factor. rewrite (Rplus_comm C1 C2). reflexivity. Qed.

Lemma delta_h_prime_swap C1 C2 h1 h2 :
  delta_h_prime C2 C1 h2 h1 = - delta_h_prime C1 C2 h1 h2.
Proof.
  unfold delta_h_prime. rewrite (Rmult_comm C2 C1).
  destruct (decide (C1 * C2 = 0)); [lra|].
  replace (h1 - h2) with (- (h2 - h1)) by lra.
  rewrite Rabs_Ropp. unfold Rabs.
  destruct (Rcase_abs (h2 - h1)); repeat (destruct (decide _)); lra.
Qed.

Lemma h_avg_prime_comm C1 C2 h1 h2 :
  h_avg_prime C2 C1 h2 h1 = h_avg_prime C1 C2 h1 h2.
Proof.
  unfold h_avg_prime. rewrite (Rmult_comm C2 C1), (Rplus_comm h2 h1).
  rewrite (Rabs_minus_sym h2 h1). reflexivity.
Qed.

Lemma terms_swap lab1 lab2 :
  let t := ciede2000_terms lab1 lab2 in
  ciede2000_terms lab2 lab1 =
  mkTerms (- delta_L t) (- delta_C t) (- delta_H t) (R_T t).
Proof.
  unfold ciede2000_terms. cbv zeta. cbn [delta_L delta_C delta_H R_T].
  rewrite (G_factor_comm (chroma (lab_a lab2) (lab_b lab2))).
  set (G := G_factor _ _).
  set (C1 := chroma (lab_a lab1 * _) _). set (C2 := chroma (lab_a lab2 * _) _).
  set (h1 := atan2_deg (lab_b lab1) _). set (h2 := atan2_deg (lab_b lab2) _).
  rewrite (delta_h_prime_swap C1 C2 h1 h2), (h_avg_prime_comm C1 C2 h1 h2).
  rewrite (Rplus_comm C2 C1), (Rmult_comm C2 C1), (Rplus_comm (lab_L lab2)).
  f_equal.
  - unfold Rdiv. ring.
  - unfold Rdiv. ring.
  - replace (- delta_h_prime C1 C2 h1 h2 * PI / 360)
      with (- (delta_h_prime C1 C2 h1 h2 * PI / 360)) by (unfold Rdiv; ring).
    rewrite sin_neg. unfold Rdiv. ring.
Qed.

Lemma radicand_swap lab1 lab2 :
  radicand (ciede2000_terms lab2 lab1) = radicand (ciede2000_terms lab1 lab2).
Proof.
  rewrite terms_swap. cbv zeta. unfold radicand. cbn [delta_L delta_C delta_H R_T]. ring.
Qed.

Lemma ciede2000_comm lab1 lab2 : ciede2000 lab1 lab2 = ciede2000 lab2 lab1.
Proof. unfold ciede2000. now rewrite radicand_swap. Qed.

(** C4: the CIEDE2000 distance is symmetric, [delta_e(A,B) = delta_e(B,A)]
    for all Lab values [A] and [B], in every branch of the hue difference
    and of the mean hue (zero chroma, wrap-around at 0/360 degrees). *)
Theorem ciede2000_symmetric lab1 lab2 : ciede2000 lab1 lab2 = ciede2000 lab2 lab1.
Proof.
  unfold ciede2000. f_equal. symmetry. apply radicand_swap.
Qed.

Lemma chroma_nonneg a b : 0 <= chroma a b.
Proof. apply sqrt_pos. Qed.

Lemma pow7_nonneg C : 0 <= C -> 0 <= C ^ 7.
Proof. intros. now apply pow_le. Qed.

Lemma ratio_bounds x : 0 <= x -> 0 <= x / (x + pow25_7) <= 1.
Proof.
  intros Hx. unfold pow25_7.
  assert (Hd : 0 < x + 6103515625) by lra.
  split.
  - apply Rmult_le_pos; [lra|]. left. now apply Rinv_0_lt_compat.
  - apply (Rmult_le_reg_r (x + 6103515625)); [lra|].
    unfold Rdiv. rewrite Rmult_assoc, Rinv_l by lra. lra.
Qed.

Lemma R_T_term_bound h C : 0 <= C -> -2 <= R_T_term h C <= 2.
Proof.
  intros HC. unfold R_T_term. cbv zeta.
  set (s := sin _).
  set (q := sqrt _).
  assert (Hs : -1 <= s <= 1) by apply SIN_bound.
  assert (Hq : 0 <= q <= 1).
  { subst q. split; [apply sqrt_pos|].
    rewrite <- sqrt_1. apply sqrt_le_1_alt.
    apply ratio_bounds. now apply pow7_nonneg. }
  nra.
Qed.

Lemma radicand_nonneg_of_bound t : -2 <= R_T t <= 2 -> 0 <= radicand t.
Proof.
  intros H. unfold radicand.
  destruct t as [dl dc dh rt]; cbn [delta_L delta_C delta_H R_T] in *.
  assert (0 <= (2 + rt) * ((dc + dh) * (dc + dh))).
  { apply Rmult_le_pos; [lra|]. apply (Rle_0_sqr (dc + dh)). }
  assert (0 <= (2 - rt) * ((dc - dh) * (dc - dh))).
  { apply Rmult_le_pos; [lra|]. apply (Rle_0_sqr (dc - dh)). }
  nra.
Qed.

Lemma radicand_nonneg lab1 lab2 : 0 <= radicand (ciede2000_terms lab1 lab2).
Proof.
  apply radicand_nonneg_of_bound.
  unfold ciede2000_terms. cbv zeta. cbn [R_T].
  apply R_T_term_bound.
  pose proof (chroma_nonneg (lab_a lab1 * (1 + G_factor (chroma (lab_a lab1) (lab_b lab1)) (chroma (lab_a lab2) (lab_b lab2)))) (lab_b lab1)).
  pose proof (chroma_nonneg (lab_a lab2 * (1 + G_factor (chroma (lab_a lab1) (lab_b lab1)) (chroma (lab_a lab2) (lab_b lab2)))) (lab_b lab2)).
  lra.
Qed.

Lemma delta_h_prime_same C h : delta_h_prime C C h h = 0.
Proof.
  unfold delta_h_prime. destruct (decide _); [reflexivity|].
  cbv zeta. replace (h - h) with 0 by lra. rewrite Rabs_R0.
  destruct (decide (0 <= 180)); [reflexivity | lra].
Qed.

Lemma terms_same lab :
  let t := ciede2000_terms lab lab in
  delta_L t = 0 /\ delta_C t = 0 /\ delta_H t = 0.
Proof.
  unfold ciede2000_terms. cbv zeta. cbn [delta_L delta_C delta_H].
  rewrite delta_h_prime_same.
  replace (0 * PI / 360) with 0 by (unfold Rdiv; ring). rewrite sin_0.
  unfold Rdiv. repeat split; ring.
Qed.

(** C5: the argument of the final square root is never negative, the
    CIEDE2000 distance is non-negative for all pairs of Lab values, and the
    distance of a colour to itself is 0. *)
Theorem ciede2000_nonneg_and_zero_on_diagonal :
  (forall lab1 lab2,
      0 <= radicand (ciede2000_terms lab1 lab2) /\ 0 <= ciede2000 lab1 lab2)
  /\ (forall lab, ciede2000 lab lab = 0).
Proof.
  split.
  - intros. split; [apply radicand_nonneg | apply sqrt_pos].
  - intros lab. unfold ciede2000, radicand.
    destruct (terms_same lab) as (HL & HC & HH).
    rewrite HL, HC, HH.
    replace (0 * 0 + 0 * 0 + 0 * 0 + _ * 0 * 0) with 0 by ring.
    apply sqrt_0.
Qed.

End Ciede2000Facts.


(** ** Palette selection *)

Module PaletteFacts.
Import Int Ciede2000 Palette Props.


Lemma is_different_spec threshold c selected :
  is_different threshold c selected = true <->
  forall s, s ∈ selected -> threshold <= ciede2000 c s.
Proof.
  unfold is_different. rewrite forallb_forall. split.
  - intros H s Hs. apply list_elem_of_In in Hs. specialize (H s Hs).
    apply negb_true_iff, bool_decide_eq_false in H. lra.
  - intros H s Hs. apply list_elem_of_In in Hs. specialize (H s Hs).
    apply negb_true_iff, bool_decide_eq_false. lra.
Qed.

Lemma diverse_nil md : diverse md [].
Proof. intros i j x y _ Hi. rewrite lookup_nil in Hi. discriminate. Qed.

Lemma diverse_snoc md selected c :
  diverse md selected -> is_different md c selected = true ->
  diverse md (selected ++ [c]).
Proof.
  intros Hdiv Hc. rewrite is_different_spec in Hc.
  intros i j x y Hij Hi Hj.
  apply lookup_snoc_Some in Hi as [[Hi1 Hi2] | [Hi1 Hi2]];
    apply lookup_snoc_Some in Hj as [[Hj1 Hj2] | [Hj1 Hj2]].
  - eapply Hdiv; eauto.
  - subst y. rewrite Ciede2000Facts.ciede2000_comm.
    apply Hc. eapply list_elem_of_lookup_2; eauto.
  - subst x. apply Hc. eapply list_elem_of_lookup_2; eauto.
  - lia.
Qed.

Lemma phase1_diverse clusters n md selected :
  diverse md selected -> diverse md (phase1 clusters n md selected).
Proof.
  revert selected. induction clusters as [|cluster rest IH]; intros selected Hdiv.
  - exact Hdiv.
  - cbn [phase1]. destruct (enough n selected); [exact Hdiv|].
    apply IH. destruct (is_different md (centroid cluster) selected) eqn:Hd.
    + now apply diverse_snoc.
    + exact Hdiv.
Qed.

Lemma phase1_length clusters n md selected :
  (Z.of_nat (length selected) <= to_size_t n)%Z ->
  (Z.of_nat (length (phase1 clusters n md selected)) <= to_size_t n)%Z.
Proof.
  revert selected. induction clusters as [|cluster rest IH]; intros selected Hlen.
  - exact Hlen.
  - cbn [phase1]. destruct (enough n selected) eqn:He; [exact Hlen|].
    apply IH. unfold enough in He. apply Z.leb_gt in He.
    destruct (is_different _ _ _); [|exact Hlen].
    rewrite length_app. cbn [length]. lia.
Qed.

Lemma phase2_length clusters n selected :
  (Z.of_nat (length selected) <= to_size_t n)%Z ->
  (Z.of_nat (length (phase2 clusters n selected)) <= to_size_t n)%Z.
Proof.
  unfold phase2. destruct (enough n selected); [auto|].
  revert selected. induction clusters as [|cluster rest IH]; intros selected Hlen.
  - exact Hlen.
  - cbn [phase2_walk]. destruct (enough n selected) eqn:He; [exact Hlen|].
    apply IH. unfold enough in He. apply Z.leb_gt in He.
    destruct (_ && _); [|exact Hlen].
    rewrite length_app. cbn [length]. lia.
Qed.

(** C6: pairwise diversity (every two accepted centroids are at least
    [min_distance] apart) is an invariant of the greedy walk of phase 1,
    for every cluster list, every [num_colors] and every [min_distance];
    in particular it holds of the selection phase 1 builds from nothing. *)
Theorem phase1_pairwise_diverse clusters n md :
  (forall selected, diverse md selected ->
                    diverse md (phase1 clusters n md selected))
  /\ diverse md (phase1 clusters n md []).
Proof.
  split.
  - intros selected Hdiv. now apply phase1_diverse.
  - apply phase1_diverse, diverse_nil.
Qed.

Lemma phase1_pairwise_diverse_witness :
  diverse 20 (phase1 [mkCluster (mkLab 50 0 0) 7; mkCluster (mkLab 60 10 10) 3] 5 20 []).
Proof.
  apply (proj1 (phase1_pairwise_diverse
                  [mkCluster (mkLab 50 0 0) 7; mkCluster (mkLab 60 10 10) 3] 5 20) []).
  intros i j x y _ Hi. destruct i; discriminate Hi.
Defined.

Section WithRandom.
Context {RS : RandomSource}.

Lemma phase3_unfold n md st :
  phase3 n md st =
  if decide (Z.of_nat (length st.1) < to_size_t n)%Z
  then phase3 n md (phase3_body md st) else st.
Proof.
  rewrite phase3_unfold_eq at 1. unfold phase3_unfold.
  destruct (decide _); reflexivity.
Qed.

Lemma phase3_body_length md st :
  length (phase3_body md st).1 = S (length st.1).
Proof.
  unfold phase3_body.
  destruct (is_different _ _ _); cbn [fst snd]; rewrite length_app; cbn [length]; lia.
Qed.

Lemma clamp_range lo hi x : lo <= hi -> lo <= clamp lo hi x <= hi.
Proof.
  intros. unfold clamp, Rmax, Rmin.
  repeat (destruct (Rle_dec _ _)); lra.
Qed.


Lemma perturbed_in_box new_lab g : in_lab_box (perturbed new_lab g).1.
Proof.
  unfold perturbed, in_lab_box. cbn [fst lab_L lab_a lab_b].
  repeat split; apply clamp_range; lra.
Qed.

Lemma phase3_body_spec md st :
  let c := candidate st.1 st.2 in
  (is_different md c.1 st.1 = true /\ phase3_body md st = (st.1 ++ [c.1], c.2))
  \/ (is_different md c.1 st.1 = false /\
      phase3_body md st = (st.1 ++ [(perturbed c.1 c.2).1], (perturbed c.1 c.2).2) /\
      in_lab_box (perturbed c.1 c.2).1).
Proof.
  cbv zeta. unfold phase3_body.
  destruct (is_different _ _ _); [left | right]; auto using perturbed_in_box.
Qed.

Lemma phase3_iter n md st :
  phase3 n md st =
  Nat.iter (Z.to_nat (to_size_t n) - length st.1) (phase3_body md) st.
Proof.
  remember (Z.to_nat (to_size_t n) - length st.1)%nat as m eqn:Hm.
  revert st Hm. induction m as [|m IH]; intros st Hm.
  - rewrite phase3_unfold. destruct (decide _); [lia | reflexivity].
  - rewrite phase3_unfold. destruct (decide _); [|lia].
    rewrite Nat.iter_succ_r. apply IH.
    rewrite phase3_body_length. lia.
Qed.

Lemma iter_body_length md m st :
  length (Nat.iter m (phase3_body md) st).1 = (m + length st.1)%nat.
Proof.
  induction m as [|m IH]; [reflexivity|].
  rewrite Nat.iter_succ, phase3_body_length, IH. lia.
Qed.

Lemma phase3_length n md st :
  (Z.of_nat (length st.1) <= to_size_t n)%Z ->
  Z.of_nat (length (phase3 n md st).1) = to_size_t n.
Proof.
  intros Hlen. rewrite phase3_iter, iter_body_length. lia.
Qed.

(** C8: the loop of phase 3 terminates and cannot fail: started with at
    most [num_colors] colours it is the loop body run exactly
    [num_colors - selected] times, it ends with exactly [num_colors]
    colours, and every round appends exactly one colour: the candidate
    when it passes the distance test, otherwise its perturbed variant,
    which lies in [[0,100] x [-128,127] x [-128,127]]. *)
Theorem phase3_runs_exactly_missing_rounds n md st :
  (Z.of_nat (length st.1) <= to_size_t n)%Z ->
  phase3 n md st =
    Nat.iter (Z.to_nat (to_size_t n) - length st.1) (phase3_body md) st
  /\ Z.of_nat (length (phase3 n md st).1) = to_size_t n
  /\ forall st' : list Lab * mt19937,
      let c := candidate st'.1 st'.2 in
      (is_different md c.1 st'.1 = true /\
       phase3_body md st' = (st'.1 ++ [c.1], c.2))
      \/ (is_different md c.1 st'.1 = false /\
          phase3_body md st' =
            (st'.1 ++ [(perturbed c.1 c.2).1], (perturbed c.1 c.2).2) /\
          in_lab_box (perturbed c.1 c.2).1).
Proof.
  intros Hlen. split; [apply phase3_iter|].
  split; [now apply phase3_length|].
  intros st'. apply phase3_body_spec.
Qed.

End WithRandom.

Lemma phase3_runs_exactly_missing_rounds_witness :
  Z.of_nat (length (phase3 (RS := CounterSource.counter_source) 3 20
                           ([mkLab 50 0 0], 0%Z)).1) = to_size_t 3.
Proof.
  refine (proj1 (proj2 (phase3_runs_exactly_missing_rounds
                          (RS := CounterSource.counter_source) 3 20
                          ([mkLab 50 0 0], 0%Z) _))).
  vm_compute. discriminate.
Defined.

End PaletteFacts.

(** ** K-Means *)

Module KMeansFacts.
Import Ciede2000 KMeans Props.
#[local] Open Scope nat_scope.

Lemma map_fmap {A B} (f : A -> B) (l : list A) : map f l = f <$> l.
Proof. induction l; [reflexivity | cbn; now f_equal]. Qed.

(** *** The nearest-centroid search *)

Lemma closest_step_index centroids p acc j :
  (closest_step centroids p acc j).2 = acc.2 \/
  (closest_step centroids p acc j).2 = j.
Proof. unfold closest_step. cbv zeta. destruct (decide _); auto. Qed.

Lemma closest_fold_bound centroids p js acc :
  let r := foldl (closest_step centroids p) acc js in
  r.2 = acc.2 \/ r.2 ∈ js.
Proof.
  cbv zeta. revert acc. induction js as [|j js IH]; intros acc; [now left|].
  cbn [foldl].
  destruct (IH (closest_step centroids p acc j)) as [H|H].
  - rewrite H. destruct (closest_step_index centroids p acc j) as [->| ->].
    + now left.
    + right. apply list_elem_of_here.
  - right. now apply list_elem_of_further.
Qed.

Lemma closest_lt centroids k p : 0 < k -> closest centroids k p < k.
Proof.
  intros Hk. unfold closest.
  destruct (closest_fold_bound centroids p (seq 0 k) (FLT_MAX, 0)) as [H|H].
  - rewrite H. exact Hk.
  - apply elem_of_seq in H. lia.
Qed.

(** *** The assignment loop does not depend on the order of its iterations *)

Lemma insert_fold_lookup {A} (f : nat -> A) (order : list nat) (l : list A) i :
  foldl (fun l i => <[i := f i]> l) l order !! i =
  if decide (i ∈ order) then (if decide (i < length l) then Some (f i) else None)
  else l !! i.
Proof.
  revert l. induction order as [|j order IH]; intros l.
  - cbn [foldl]. rewrite (decide_False (P := i ∈ [])); [reflexivity|].
    apply not_elem_of_nil.
  - cbn [foldl]. rewrite IH, length_insert.
    destruct (decide (i ∈ order)) as [Hin|Hnin].
    + rewrite (decide_True (P := i ∈ j :: order)); [reflexivity|].
      now apply list_elem_of_further.
    + destruct (decide (i = j)) as [->|Hne].
      * rewrite (decide_True (P := j ∈ j :: order)) by apply list_elem_of_here.
        destruct (decide (j < length l)) as [Hlt|Hge].
        -- now apply list_lookup_insert_eq.
        -- apply lookup_ge_None_2. rewrite length_insert. lia.
      * rewrite (decide_False (P := i ∈ j :: order)).
        -- now apply list_lookup_insert_ne.
        -- intros H. apply elem_of_cons in H as [?|?]; congruence.
Qed.

Lemma assign_pass_map order centroids k pixels assignments :
  order ≡ₚ seq 0 (length pixels) ->
  length assignments = length pixels ->
  assign_pass order centroids k pixels assignments = map (closest centroids k) pixels.
Proof.
  intros Hperm Hlen. unfold assign_pass. rewrite map_fmap.
  apply list_eq. intros i.
  rewrite (insert_fold_lookup (fun i => closest centroids k (pixels !!! i))).
  rewrite list_lookup_fmap, Hlen.
  destruct (decide (i ∈ order)) as [Hin|Hnin].
  - rewrite Hperm in Hin. apply elem_of_seq in Hin.
    rewrite decide_True by lia.
    destruct (lookup_lt_is_Some_2 pixels i) as [p Hp]; [lia|].
    rewrite Hp. cbn. f_equal. f_equal. now apply list_lookup_total_correct.
  - assert (length pixels <= i).
    { destruct (decide (i < length pixels)); [|lia].
      exfalso. apply Hnin. rewrite Hperm. apply elem_of_seq. lia. }
    rewrite !lookup_ge_None_2 by lia. reflexivity.
Qed.

(** *** The accumulation loop *)

Lemma sum_list_alter_S (l : list nat) c :
  c < length l -> sum_list (alter S c l) = S (sum_list l).
Proof.
  revert c. induction l as [|x l IH]; intros c Hc; [cbn in Hc; lia|].
  destruct c as [|c]; cbn in *; [lia|]. rewrite IH by lia. lia.
Qed.

Lemma accumulate_prefix k pixels assignments m :
  (forall i, i < m -> assignments !!! i < k) ->
  let acc := foldl (accumulate_step pixels assignments)
                   (replicate k Lab0, replicate k 0) (seq 0 m) in
  length acc.1 = k /\ length acc.2 = k /\ sum_list acc.2 = m.
Proof.
  cbv zeta. induction m as [|m IH]; intros Hasg.
  - cbn. rewrite !length_replicate. repeat split.
    clear. induction k; cbn; auto.
  - rewrite seq_S, foldl_app. cbn [foldl Nat.add].
    destruct IH as (H1 & H2 & H3); [intros; apply Hasg; lia|].
    unfold accumulate_step at 1 3 5. cbv zeta. cbn [fst snd].
    rewrite !length_alter, sum_list_alter_S by (rewrite H2; apply Hasg; lia).
    auto.
Qed.

Lemma accumulate_sizes k pixels assignments :
  (forall i, i < length pixels -> assignments !!! i < k) ->
  length (accumulate k pixels assignments).1 = k /\
  length (accumulate k pixels assignments).2 = k /\
  sum_list (accumulate k pixels assignments).2 = length pixels.
Proof. intros H. now apply accumulate_prefix. Qed.

Lemma closest_assignments centroids k pixels i :
  0 < k -> i < length pixels ->
  (map (closest centroids k) pixels) !!! i < k.
Proof.
  intros Hk Hi. rewrite map_fmap.
  rewrite (list_lookup_total_fmap (closest centroids k) pixels i Hi).
  now apply closest_lt.
Qed.

Section WithRandom.
Context {RS : RandomSource}.

(** *** Reseeding draws a sample *)

Lemma draw_pixel_elem pixels g : pixels <> [] -> (draw_pixel pixels g).1 ∈ pixels.
Proof.
  intros Hne. unfold draw_pixel. cbv zeta. cbn [fst].
  apply list_elem_of_lookup_total_2.
  pose proof (uniform_int_range 0 (length pixels - 1) g ltac:(lia)).
  destruct pixels; [congruence|]. cbn [length] in *. lia.
Qed.

Lemma init_centroids_spec k pixels g :
  pixels <> [] ->
  length (init_centroids k pixels g).1 = k /\
  Forall (fun c => c ∈ pixels) (init_centroids k pixels g).1.
Proof.
  intros Hne. revert g. induction k as [|k IH]; intros g; cbn [init_centroids fst].
  - split; [reflexivity | constructor].
  - destruct (IH (draw_pixel pixels g).2) as [H1 H2]. split.
    + cbn [length]. now rewrite H1.
    + constructor; [now apply draw_pixel_elem | exact H2].
Qed.

Lemma finish_prefix pixels sizes sums g m :
  pixels <> [] ->
  let fin := foldl (finish_step pixels sizes) (sums, g) (seq 0 m) in
  length fin.1 = length sums /\
  forall j, j < m -> j < length sums -> sizes !!! j = 0 -> fin.1 !!! j ∈ pixels.
Proof.
  intros Hne. cbv zeta. induction m as [|m IH].
  - cbn. split; [reflexivity | intros; lia].
  - rewrite seq_S, foldl_app. cbn [foldl Nat.add].
    destruct IH as [Hlen Hre].
    set (acc := foldl _ _ _) in *.
    unfold finish_step at 1 2. cbv zeta.
    destruct (decide (0 < sizes !!! m)) as [Hpos|Hzero]; cbn [fst snd].
    + rewrite length_alter. split; [exact Hlen|].
      intros j Hj Hjl Hz. assert (m <> j) by (intros ->; lia).
      rewrite list_lookup_total_alter_ne by auto. apply Hre; auto; lia.
    + rewrite length_insert. split; [exact Hlen|].
      intros j Hj Hjl Hz. destruct (decide (j = m)) as [->|Hne'].
      * rewrite list_lookup_total_insert_eq by lia. now apply draw_pixel_elem.
      * rewrite list_lookup_total_insert_ne by auto. apply Hre; auto; lia.

Qed.


Lemma iteration_post order k pixels st :
  pixels <> [] -> 0 < k ->
  order ≡ₚ seq 0 (length pixels) ->
  length (assignments st) = length pixels ->
  post k pixels (iteration order k pixels st).1.
Proof.
  intros Hne Hk Hperm Hlen. unfold iteration. cbv zeta. cbn [fst].
  rewrite (assign_pass_map _ _ _ _ _ Hperm Hlen).
  set (asg := map _ pixels).
  destruct (accumulate_sizes k pixels asg) as (Ha1 & Ha2 & Ha3).
  { intros i Hi. now apply closest_assignments. }
  unfold finish_centroids.
  destruct (finish_prefix pixels (accumulate k pixels asg).2
              (accumulate k pixels asg).1 (gen st) k Hne) as [Hf1 Hf2].
  unfold post. cbn [assignments centroids cluster_sizes].
  repeat split; auto.
  - subst asg. now rewrite length_map.
  - now rewrite Hf1.
  - intros j Hj Hz. apply Hf2; auto. lia.
Qed.

Lemma loop_post sched k pixels iter todo st :
  pixels <> [] -> 0 < k ->
  (forall i, sched i ≡ₚ seq 0 (length pixels)) ->
  length (assignments st) = length pixels ->
  (0 < todo \/ post k pixels st) ->
  post k pixels (loop sched k pixels iter todo st).
Proof.
  intros Hne Hk Hsched. revert iter st.
  induction todo as [|todo IH]; intros iter st Hlen Hpost.
  - cbn. destruct Hpost; [lia | assumption].
  - cbn [loop]. cbv zeta.
    pose proof (iteration_post (sched iter) k pixels st Hne Hk (Hsched iter) Hlen) as Hp.
    destruct (iteration (sched iter) k pixels st).2; [exact Hp|].
    apply IH; [apply Hp | now right].
Qed.

Lemma lookup_total_seq_map {A} `{!Inhabited A} (l : list A) :
  map (fun j => l !!! j) (seq 0 (length l)) = l.
Proof.
  rewrite map_fmap. apply list_eq. intros i. rewrite list_lookup_fmap.
  destruct (decide (i < length l)) as [Hlt|Hge].
  - rewrite lookup_seq_lt by exact Hlt. cbn.
    symmetry. now apply list_lookup_lookup_total_lt.
  - rewrite lookup_seq_ge by lia. cbn. symmetry. apply lookup_ge_None_2. lia.
Qed.

Lemma iteration_schedule_irrelevant order1 order2 k pixels st :
  order1 ≡ₚ seq 0 (length pixels) -> order2 ≡ₚ seq 0 (length pixels) ->
  length (assignments st) = length pixels ->
  iteration order1 k pixels st = iteration order2 k pixels st.
Proof.
  intros H1 H2 Hlen. unfold iteration.
  now rewrite (assign_pass_map _ _ _ _ _ H1 Hlen), (assign_pass_map _ _ _ _ _ H2 Hlen).
Qed.

Lemma iteration_assignments_length order k pixels st :
  order ≡ₚ seq 0 (length pixels) ->
  length (assignments st) = length pixels ->
  length (assignments (iteration order k pixels st).1) = length pixels.
Proof.
  intros H Hlen. unfold iteration. cbv zeta. cbn [fst assignments].
  rewrite (assign_pass_map _ _ _ _ _ H Hlen). apply length_map.
Qed.

Lemma loop_schedule_irrelevant sched1 sched2 k pixels iter todo st :
  (forall i, sched1 i ≡ₚ seq 0 (length pixels)) ->
  (forall i, sched2 i ≡ₚ seq 0 (length pixels)) ->
  length (assignments st) = length pixels ->
  loop sched1 k pixels iter todo st = loop sched2 k pixels iter todo st.
Proof.
  intros H1 H2. revert iter st. induction todo as [|todo IH]; intros iter st Hlen.
  - reflexivity.
  - cbn [loop]. cbv zeta.
    rewrite (iteration_schedule_irrelevant (sched1 iter) (sched2 iter))
      by auto.
    destruct (iteration (sched2 iter) k pixels st).2; [reflexivity|].
    apply IH. now apply iteration_assignments_length.
Qed.

Lemma kmeans_seeded_schedule_irrelevant sched1 sched2 g pixels k max_iters :
  (forall i, sched1 i ≡ₚ seq 0 (length pixels)) ->
  (forall i, sched2 i ≡ₚ seq 0 (length pixels)) ->
  kmeans_seeded sched1 g pixels k max_iters =
  kmeans_seeded sched2 g pixels k max_iters.
Proof.
  intros H1 H2. unfold kmeans_seeded. cbv zeta.
  rewrite (loop_schedule_irrelevant sched1 sched2); auto.
  cbn [assignments]. apply length_replicate.
Qed.

Lemma sequential_schedule pixels i : sequential pixels i ≡ₚ seq 0 (length pixels).
Proof. reflexivity. Qed.

(** C7: with the same seed drawn from the random device, two runs of the
    clustering on the same samples return the same clusters (centroids and
    populations), whatever the two entropy states are otherwise and in
    whatever order the iterations of the assignment loops run. *)
Theorem kmeans_deterministic_under_seed sched1 sched2 e1 e2 pixels k max_iters :
  (random_device e1).1 = (random_device e2).1 ->
  (forall i, sched1 i ≡ₚ seq 0 (length pixels)) ->
  (forall i, sched2 i ≡ₚ seq 0 (length pixels)) ->
  (kmeans_lab_omp sched1 e1 pixels k max_iters).1 =
  (kmeans_lab_omp sched2 e2 pixels k max_iters).1
  /\ (kmeans_lab e1 pixels k max_iters).1 = (kmeans_lab e2 pixels k max_iters).1.
Proof.
  intros Hseed H1 H2. unfold kmeans_lab, kmeans_lab_omp.
  destruct (decide _); [split; reflexivity|]. cbv zeta. cbn [fst].
  rewrite Hseed. split; [|reflexivity].
  now apply kmeans_seeded_schedule_irrelevant.
Qed.

Lemma kmeans_seeded_post sched g pixels k max_iters :
  pixels <> [] -> 0 < k -> (1 <= max_iters)%Z ->
  (forall i, sched i ≡ₚ seq 0 (length pixels)) ->
  let clusters := kmeans_seeded sched g pixels k max_iters in
  length clusters = k /\
  sum_list (map size clusters) = length pixels /\
  forall c, c ∈ clusters -> size c = 0 -> centroid c ∈ pixels.
Proof.
  intros Hne Hk Hit Hsched. unfold kmeans_seeded. cbv zeta.
  set (st0 := mkState _ _ _ _).
  destruct (loop_post sched k pixels 0 (Z.to_nat max_iters) st0 Hne Hk Hsched)
    as (Hp1 & Hp2 & Hp3 & Hp4 & Hp5).
  { apply length_replicate. }
  { left. lia. }
  set (st := loop _ _ _ _ _ _) in *.
  repeat split.
  - rewrite length_map. apply length_seq.
  - rewrite map_map. cbn [size]. rewrite <- Hp3 at 1.
    now rewrite lookup_total_seq_map.
  - intros c Hc Hz. rewrite map_fmap in Hc.
    apply list_elem_of_fmap in Hc as (j & -> & Hj).
    apply elem_of_seq in Hj. cbn [size centroid] in *. apply Hp5; [lia | exact Hz].
Qed.

End WithRandom.

Lemma kmeans_deterministic_under_seed_witness :
  (kmeans_lab_omp (RS := CounterSource.counter_source)
     (fun _ => [0; 1]) 0%Z Examples.two_samples 8 30).1 =
  (kmeans_lab_omp (RS := CounterSource.counter_source)
     (fun _ => [1; 0]) 0%Z Examples.two_samples 8 30).1.
Proof.
  refine (proj1 (kmeans_deterministic_under_seed
                   (RS := CounterSource.counter_source)
                   (fun _ => [0; 1]) (fun _ => [1; 0]) 0%Z 0%Z
                   Examples.two_samples 8 30 _ _ _)).
  - reflexivity.
  - intros _. reflexivity.
  - intros _. apply perm_swap.
Defined.

End KMeansFacts.

(** ** Pixel sampling *)

Module SamplerFacts.
Import Int Buffer Sampler Props.
#[local] Open Scope Z_scope.


Lemma wrap32_mod4 z : wrap32 z mod 4 = z mod 4.
Proof. unfold wrap32. Z.div_mod_to_equations. lia. Qed.

Lemma alpha_all_zero_lookup q : forall pixels b,
  alpha_all_zero pixels = true ->
  pixels !! (4 * q + 3)%nat = Some b -> b = 0.
Proof.
  induction q as [|q IH]; intros pixels b Hz Hb.
  - destruct pixels as [|? [|? [|? [|a rest]]]]; cbn in Hb; try discriminate.
    cbn in Hz. apply andb_true_iff in Hz as [Ha _].
    apply Z.eqb_eq in Ha. congruence.
  - replace (4 * S q + 3)%nat with (S (S (S (S (4 * q + 3))))) in Hb by lia.
    destruct pixels as [|? [|? [|? [|a rest]]]]; try discriminate.
    cbn [alpha_all_zero] in Hz. apply andb_true_iff in Hz as [_ Hrest].
    eapply IH; eauto.
Qed.

Lemma alpha_byte_zero pixels i :
  alpha_all_zero pixels = true -> i mod 4 = 3 -> byte_at pixels i = 0.
Proof.
  intros Hz Hi. unfold byte_at. destruct (i <? 0) eqn:Hneg; [reflexivity|].
  apply Z.ltb_ge in Hneg.
  destruct (pixels !! Z.to_nat i) as [b|] eqn:Hb; [|reflexivity]. cbn.
  assert (Hq : exists q : nat, Z.to_nat i = (4 * q + 3)%nat).
  { exists (Z.to_nat i / 4)%nat. pose proof (Nat.div_mod_eq (Z.to_nat i) 4).
    assert (Z.of_nat (Z.to_nat i mod 4) = 3); [|lia].
    change 4%nat with (Z.to_nat 4). rewrite <- Z2Nat.inj_mod by lia.
    rewrite Z2Nat.id; [exact Hi|]. apply Z.mod_pos_bound. lia. }
  destruct Hq as [q Hq]. rewrite Hq in Hb.
  eapply alpha_all_zero_lookup; eauto.
Qed.

Lemma sample_pixel_transparent img tw th x y :
  channels img = 4 -> alpha_all_zero (pixels img) = true ->
  sample_pixel img tw th x y = None.
Proof.
  intros Hc Hz. unfold sample_pixel. cbv zeta. rewrite Hc.
  rewrite alpha_byte_zero; [reflexivity | exact Hz |].
  unfold int_add, int_mul. rewrite wrap32_mod4.
  rewrite Z.add_mod, wrap32_mod4 by lia.
  rewrite Z.mod_mul by lia. reflexivity.
Qed.

(** The two filters, in the claim's words: a resampled pixel survives
    exactly when it is not transparent and its mean brightness lies in
    [20..240]. *)
Lemma sample_pixel_Some img tw th x y rgb :
  sample_pixel img tw th x y = Some rgb <->
  let src_x := Z.quot (int_mul x (width img)) tw in
  let src_y := Z.quot (int_mul y (height img)) th in
  let src_idx := int_mul (int_add (int_mul src_y (width img)) src_x) (channels img) in
  rgb = mkRGB (byte_at (pixels img) src_idx)
              (byte_at (pixels img) (int_add src_idx 1))
              (byte_at (pixels img) (int_add src_idx 2)) /\
  (channels img = 4 -> 128 <= byte_at (pixels img) (int_add src_idx 3)) /\
  20 <= Z.quot (rgb_r rgb + rgb_g rgb + rgb_b rgb) 3 <= 240.
Proof.
  unfold sample_pixel. cbv zeta.
  set (idx := int_mul _ (channels img)).
  set (r := byte_at _ idx). set (g := byte_at _ (int_add idx 1)).
  set (b := byte_at _ (int_add idx 2)). set (al := byte_at _ (int_add idx 3)).
  assert (Hbr : forall t, mkRGB r g b = t ->
                Z.quot (rgb_r t + rgb_g t + rgb_b t) 3 = Z.quot (r + g + b) 3)
    by (now intros t <-).
  generalize dependent (Z.quot (r + g + b) 3). intros br Hbr.
  destruct (Z.eqb_spec (channels img) 4) as [Hc|Hc];
    destruct (Z.ltb_spec al 128) as [Ha|Ha]; cbn [andb].
  - split; [discriminate|]. intros (_ & H1 & _). specialize (H1 Hc). lia.
  - destruct (Z.ltb_spec 240 br) as [Hhi|Hhi];
      destruct (Z.ltb_spec br 20) as [Hlo|Hlo]; cbn [orb];
      (split; [try discriminate; intros [= <-]; rewrite (Hbr _ eq_refl); auto with zarith
              | intros (-> & _ & H2); rewrite (Hbr _ eq_refl) in H2;
                try reflexivity; lia]).
  - destruct (Z.ltb_spec 240 br) as [Hhi|Hhi];
      destruct (Z.ltb_spec br 20) as [Hlo|Hlo]; cbn [orb];
      (split; [try discriminate; intros [= <-]; rewrite (Hbr _ eq_refl);
               repeat split; try lia; intros; contradiction
              | intros (-> & _ & H2); rewrite (Hbr _ eq_refl) in H2;
                try reflexivity; lia]).
  - destruct (Z.ltb_spec 240 br) as [Hhi|Hhi];
      destruct (Z.ltb_spec br 20) as [Hlo|Hlo]; cbn [orb];
      (split; [try discriminate; intros [= <-]; rewrite (Hbr _ eq_refl);
               repeat split; try lia; intros; contradiction
              | intros (-> & _ & H2); rewrite (Hbr _ eq_refl) in H2;
                try reflexivity; lia]).
Qed.

Lemma omap_none {A B} (f : A -> option B) (l : list A) :
  (forall x, f x = None) -> omap f l = [].
Proof.
  intros Hf. induction l as [|x l IH]; [reflexivity|].
  cbn [omap list_omap]. now rewrite Hf.
Qed.

Lemma flat_map_nil {A B} (f : A -> list B) (l : list A) :
  (forall x, f x = []) -> flat_map f l = [].
Proof.
  intros Hf. induction l as [|x l IH]; [reflexivity|].
  cbn [flat_map]. now rewrite Hf, IH.
Qed.

Lemma scaled_pixels_transparent img m :
  channels img = 4 -> alpha_all_zero (pixels img) = true ->
  scaled_pixels img m = [].
Proof.
  intros Hc Hz. unfold scaled_pixels. cbv zeta.
  apply flat_map_nil. intros y. apply omap_none. intros x.
  now apply sample_pixel_transparent.
Qed.

Lemma decode_error data err :
  decode data = inl err ->
  (exists why, err = invalid_argument why) \/ err = undefined division_by_zero.
Proof.
  unfold decode. cbv zeta.
  repeat (destruct (_ : bool)); intros [= <-]; eauto.
Qed.

End SamplerFacts.

(** ** The extraction entry point *)

Module ExtractFacts.
Import Int Buffer Sampler KMeans Palette ColorSpace.
Import SamplerFacts PaletteFacts Props.

Lemma to_uint8_range c : (0 <= to_uint8 c <= 255)%Z.
Proof.
  unfold to_uint8.
  assert (H : 0 <= Rmax 0 (Rmin 1 c) <= 1).
  { unfold Rmax, Rmin. repeat (destruct (Rle_dec _ _)); lra. }
  set (y := Rmax 0 (Rmin 1 c)) in *.
  split.
  - apply Zfloor_lub. lra.
  - pose proof (Zfloor_bound (y * 255 + 0.5)) as [Hlo _].
    apply Z.lt_succ_r. apply lt_IZR. rewrite succ_IZR. lra.
Qed.


Lemma lab_to_rgb_triple lab : is_rgb_triple (to_tuple (lab_to_rgb lab)).
Proof.
  unfold is_rgb_triple, to_tuple, lab_to_rgb. cbn [fst snd rgb_r rgb_g rgb_b].
  repeat split; apply to_uint8_range.
Qed.

Lemma to_size_t_small n : (0 <= n <= INT_MAX)%Z -> to_size_t n = n.
Proof. unfold to_size_t, INT_MAX. intros. apply Z.mod_small. lia. Qed.

Lemma reserve_ok n : (0 <= n <= INT_MAX)%Z -> reserve_throws n = false.
Proof.
  intros H. unfold reserve_throws. rewrite to_size_t_small by exact H.
  apply Z.ltb_ge. unfold INT_MAX in H.
  change vector_max_size with 768614336404564650%Z. lia.
Qed.

Lemma reserve_negative n : (- 2 ^ 31 <= n < 0)%Z -> reserve_throws n = true.
Proof.
  intros H. unfold reserve_throws, to_size_t. apply Z.ltb_lt.
  change vector_max_size with 768614336404564650%Z.
  Z.div_mod_to_equations. lia.
Qed.

Section WithRandom.
Context {RS : RandomSource}.

(** The selection phases of [extract_colors], from the sorted clusters. *)
Lemma selection_length clusters n md g :
  (0 <= n <= INT_MAX)%Z ->
  length (take (Z.to_nat (to_size_t n))
               (phase3 n md (phase2 clusters n (phase1 clusters n md []), g)).1)
  = Z.to_nat n.
Proof.
  intros Hn.
  pose proof (phase3_length n md (phase2 clusters n (phase1 clusters n md []), g)) as H3.
  cbn [fst] in H3.
  rewrite length_take, to_size_t_small in * by exact Hn.
  assert (Z.of_nat (length (phase2 clusters n (phase1 clusters n md []))) <= to_size_t n)%Z.
  { apply phase2_length, phase1_length. cbn [length]. rewrite to_size_t_small by exact Hn. lia. }
  rewrite to_size_t_small in * by exact Hn. specialize (H3 ltac:(assumption)). lia.
Qed.

Lemma extract_colors_unfold e data n md m img :
  decode data = inr img ->
  reserve_rgb_throws (int_mul (Z.min (width img) m) (Z.min (height img) m)) = false ->
  reads_in_bounds img m = true ->
  (10 <= length (scaled_pixels img m))%nat ->
  reserve_throws n = false ->
  exists clusters g,
    extract_colors e data n md m =
    inr (map (fun lab => to_tuple (lab_to_rgb lab))
             (take (Z.to_nat (to_size_t n))
                   (phase3 n md (phase2 clusters n (phase1 clusters n md []), g)).1)).
Proof.
  intros Hd Hrgb Hreads Hlen Hr. unfold extract_colors. rewrite Hd. cbv zeta.
  rewrite Hrgb, Hreads. cbn [negb].
  destruct (Nat.ltb_spec (length (scaled_pixels img m)) 10) as [?|_]; [lia|].
  rewrite Hr. eauto.
Qed.

Lemma extract_colors_insufficient e data n md m img :
  decode data = inr img ->
  reserve_rgb_throws (int_mul (Z.min (width img) m) (Z.min (height img) m)) = false ->
  reads_in_bounds img m = true ->
  (extract_colors e data n md m = inl insufficient_pixels
   <-> (length (scaled_pixels img m) < 10)%nat).
Proof.
  intros Hd Hrgb Hreads. unfold extract_colors. rewrite Hd. cbv zeta.
  rewrite Hrgb, Hreads. cbn [negb].
  destruct (Nat.ltb_spec (length (scaled_pixels img m)) 10) as [Hlt|Hge].
  - split; auto.
  - destruct (reserve_throws n); (split; [discriminate | lia]).
Qed.

End WithRandom.

End ExtractFacts.

(** ** More on the colour-space conversion *)

Module ColorSpaceExtras.
Import ColorSpace Props ColorSpaceFacts.

(** [gamma_uncorrect] is the exact inverse of [gamma_correct] on every
    8-bit channel value. *)
Theorem gamma_uncorrect_gamma_correct (c : Z) :
  (0 <= c <= 255)%Z ->
  gamma_uncorrect (gamma_correct (IZR c / 255)) = IZR c / 255.
Proof.
  intros Hc.
  destruct (Z_le_gt_dec c 10) as [Hlo|Hhi].
  - assert (0 <= IZR c <= 10) by (split; apply IZR_le; lia).
    unfold gamma_correct.
    destruct (decide (0.04045 < IZR c / 255)) as [?|_]; [lra|].
    unfold gamma_uncorrect.
    destruct (decide (0.0031308 < IZR c / 255 / 12.92)) as [?|_]; lra.
  - assert (11 <= IZR c <= 255) by (split; apply IZR_le; lia).
    unfold gamma_correct.
    destruct (decide (0.04045 < IZR c / 255)) as [_|?]; [|lra].
    set (X := (IZR c / 255 + 0.055) / 1.055).
    assert (HX : X11 <= X <= 1) by (unfold X, X11; lra).
    assert (HX0 : 0 < X) by (unfold X11 in HX; lra).
    pose proof (Rpower_14_lower X (proj1 HX)) as H14.
    assert (Hu : Rpower X 2.4 = X * Rpower X 1.4).
    { replace 2.4 with (1 + 1.4) by lra. now rewrite Rpower_plus, Rpower_1. }
    unfold gamma_uncorrect.
    destruct (decide (0.0031308 < Rpower X 2.4)) as [_|Hn].
    + rewrite Rpower_mult. replace (2.4 * (1 / 2.4)) with 1 by lra.
      rewrite Rpower_1 by exact HX0. unfold X. lra.
    + exfalso. apply Hn. rewrite Hu. unfold X11 in HX. nra.
Qed.

Lemma gamma_uncorrect_gamma_correct_witness :
  gamma_uncorrect (gamma_correct (IZR 128 / 255)) = IZR 128 / 255.
Proof. apply (gamma_uncorrect_gamma_correct 128). lia. Defined.

(** The lambda [f_inv] of [lab_to_rgb] is the exact inverse of the lambda
    [f] of [rgb_to_lab] on every non-negative argument: the two branch
    thresholds agree. *)
Theorem lab_f_inverse t : 0 <= t -> lab_f_inv (lab_f t) = t.
Proof. intros Ht. now apply lab_f_inv_f. Qed.

Lemma lab_f_inverse_witness : lab_f_inv (lab_f 0.5) = 0.5.
Proof. apply (lab_f_inverse 0.5). lra. Defined.

Lemma cbrt_le_1 t : 0 < t -> t <= 1 -> 0 < cbrt t <= 1.
Proof.
  intros H0 H1. unfold cbrt. destruct (decide (0 < t)) as [_|?]; [|lra].
  split; [apply Rpower_pos|].
  pose proof (Rpower_between t (/ 3) H0 ltac:(lra)) as [_ Hb].
  rewrite Rmax_left in Hb by lra. exact Hb.
Qed.

Lemma lab_f_range t : 0 <= t <= 1 -> 16 / 116 <= lab_f t <= 1.
Proof.
  intros Ht. unfold lab_f. destruct (decide (0.008856 < t)) as [Hhi|Hlo].
  - destruct (cbrt_le_1 t ltac:(lra) ltac:(lra)) as [Hc0 Hc1].
    split; [|exact Hc1].
    (* cbrt t >= 16/116, since (16/116)^3 < 0.008856 < t *)
    destruct (Rle_lt_dec (16 / 116) (cbrt t)) as [H|H]; [exact H|].
    exfalso. pose proof (cbrt_cube t ltac:(lra)) as Hcube.
    assert (cbrt t * cbrt t <= 16 / 116 * (16 / 116)) by nra.
    assert (cbrt t * cbrt t * cbrt t <= 16 / 116 * (16 / 116) * (16 / 116)) by nra.
    lra.
  - lra.
Qed.

(** The lightness of every 8-bit colour lies in [[0, 100]]. *)
Theorem rgb_to_lab_lightness_range r g b :
  (0 <= r <= 255)%Z -> (0 <= g <= 255)%Z -> (0 <= b <= 255)%Z ->
  0 <= lab_L (rgb_to_lab r g b) <= 100.
Proof.
  intros Hr Hg Hb.
  assert (Hir : 0 <= IZR r / 255 <= 1).
  { assert (0 <= IZR r <= 255) by (split; apply IZR_le; lia). lra. }
  assert (Hig : 0 <= IZR g / 255 <= 1).
  { assert (0 <= IZR g <= 255) by (split; apply IZR_le; lia). lra. }
  assert (Hib : 0 <= IZR b / 255 <= 1).
  { assert (0 <= IZR b <= 255) by (split; apply IZR_le; lia). lra. }
  pose proof (gamma_correct_range _ Hir) as Hur.
  pose proof (gamma_correct_range _ Hig) as Hug.
  pose proof (gamma_correct_range _ Hib) as Hub.
  unfold rgb_to_lab. cbv zeta. cbn [lab_L].
  set (ur := gamma_correct (IZR r / 255)) in *.
  set (ug := gamma_correct (IZR g / 255)) in *.
  set (ub := gamma_correct (IZR b / 255)) in *.
  pose proof (lab_f_range ((ur * 0.2126 + ug * 0.7152 + ub * 0.0722) / 1.00000)
                ltac:(lra)).
  lra.
Qed.

Lemma rgb_to_lab_lightness_range_witness :
  0 <= lab_L (rgb_to_lab 12 200 255) <= 100.
Proof. apply (rgb_to_lab_lightness_range 12 200 255); lia. Defined.

(** Whatever Lab value it is given, [lab_to_rgb] returns three channels in
    [0..255]: out-of-gamut colours are clamped, never wrapped. *)
Theorem lab_to_rgb_in_gamut lab :
  (0 <= rgb_r (lab_to_rgb lab) <= 255 /\ 0 <= rgb_g (lab_to_rgb lab) <= 255 /\
   0 <= rgb_b (lab_to_rgb lab) <= 255)%Z.
Proof.
  unfold lab_to_rgb. cbv zeta. cbn [rgb_r rgb_g rgb_b].
  repeat split; apply ExtractFacts.to_uint8_range.
Qed.

End ColorSpaceExtras.

(** ** More on CIEDE2000 *)

Module Ciede2000Extras.
Import Ciede2000 Props Ciede2000Facts.

Lemma ciede2000_self lab : ciede2000 lab lab = 0.
Proof.
  unfold ciede2000, radicand. destruct (terms_same lab) as (HL & HC & HH).
  rewrite HL, HC, HH.
  replace (0 * 0 + 0 * 0 + 0 * 0 + _ * 0 * 0) with 0 by ring.
  apply sqrt_0.
Qed.

Lemma atan2_range y x : - PI < atan2 y x <= PI.
Proof.
  pose proof PI_RGT_0 as Hpi.
  pose proof (atan_bound (y / x)) as Hb.
  unfold atan2.
  destruct (decide (0 < x)) as [Hx|Hx]; [lra|].
  destruct (decide (x < 0)) as [Hx'|Hx'].
  - assert (Hinv : / x < 0) by (now apply Rinv_lt_0_compat).
    destruct (decide (0 <= y)) as [Hy|Hy].
    + (* y / x <= 0, so atan (y / x) <= 0 *)
      assert (Hq : y / x <= 0) by (unfold Rdiv; nra).
      assert (atan (y / x) <= 0).
      { rewrite <- atan_0. destruct Hq as [Hq|Hq].
        - left. now apply atan_increasing.
        - rewrite Hq. lra. }
      lra.
    + assert (Hq : 0 < y / x) by (unfold Rdiv; nra).
      assert (0 < atan (y / x)).
      { rewrite <- atan_0. now apply atan_increasing. }
      lra.
  - repeat (destruct (decide _)); lra.
Qed.

(** The hue angle computed by [atan2_deg] lies in [[0, 360]]: an angle
    below 0 is raised by one turn.  The upper bound is stated closed, as it
    also holds when the sum [deg + 360] is rounded. *)
Theorem atan2_deg_range y x : 0 <= atan2_deg y x <= 360.
Proof.
  pose proof PI_RGT_0 as Hpi.
  pose proof (atan2_range y x) as [Hlo Hhi].
  unfold atan2_deg. cbv zeta.
  set (rad := atan2 y x) in *.
  assert (Hdeg : -180 < rad * 180 / PI <= 180).
  { split.
    - apply (Rmult_lt_reg_r PI); [exact Hpi|].
      unfold Rdiv. rewrite Rmult_assoc, Rinv_l by lra. lra.
    - apply (Rmult_le_reg_r PI); [exact Hpi|].
      unfold Rdiv. rewrite Rmult_assoc, Rinv_l by lra. lra. }
  destruct (decide (rad * 180 / PI < 0)); lra.
Qed.

Lemma T_weight_lower h : 0.07 <= T_weight h.
Proof.
  unfold T_weight. cbv zeta.
  set (h_rad := h * PI / 180).
  pose proof (COS_bound (h_rad - PI / 6)).
  pose proof (COS_bound (2 * h_rad)).
  pose proof (COS_bound (3 * h_rad + PI / 30)).
  pose proof (COS_bound (4 * h_rad - 1.099557)).
  lra.
Qed.

Lemma S_L_weight_lower L : 1 <= S_L_weight L.
Proof.
  unfold S_L_weight. cbv zeta. set (d := L - 50).
  assert (0 <= d * d) by nra.
  assert (0 < sqrt (20 + d * d)) by (apply sqrt_lt_R0; lra).
  assert (0 <= 0.015 * d * d / sqrt (20 + d * d)).
  { apply Rmult_le_pos; [nra|]. left. now apply Rinv_0_lt_compat. }
  lra.
Qed.

(** The three weighting functions by which [ciede2000] divides are at
    least 1 for every pair of colours (the chroma mean [C] is a mean of
    square roots, hence non-negative): the source never divides by zero. *)
Theorem ciede2000_weights_at_least_one L h C :
  0 <= C ->
  1 <= S_L_weight L /\ 1 <= 1 + 0.045 * C /\ 1 <= 1 + 0.015 * C * T_weight h.
Proof.
  intros HC. pose proof (T_weight_lower h). pose proof (S_L_weight_lower L).
  repeat split; [assumption | nra | nra].
Qed.

Lemma ciede2000_weights_at_least_one_witness :
  1 <= S_L_weight 50 /\ 1 <= 1 + 0.045 * 10 /\ 1 <= 1 + 0.015 * 10 * T_weight 90.
Proof. apply (ciede2000_weights_at_least_one 50 90 10). lra. Defined.

Lemma chroma_zero : chroma 0 0 = 0.
Proof. unfold chroma. replace (0 * 0 + 0 * 0) with 0 by ring. apply sqrt_0. Qed.

(** Between two achromatic colours ([a = b = 0]) the distance is the
    lightness difference divided by the lightness weight. *)
Theorem ciede2000_achromatic L1 L2 :
  ciede2000 (mkLab L1 0 0) (mkLab L2 0 0)
  = Rabs (L2 - L1) / S_L_weight ((L1 + L2) / 2).
Proof.
  unfold ciede2000, radicand, ciede2000_terms. cbv zeta.
  cbn [lab_L lab_a lab_b delta_L delta_C delta_H R_T].
  rewrite !Rmult_0_l, chroma_zero.
  unfold delta_h_prime. rewrite Rmult_0_l.
  destruct (decide (0 = 0)) as [_|?]; [|lra].
  replace (0 * PI / 360) with 0 by (unfold Rdiv; ring). rewrite sin_0.
  set (S := S_L_weight _).
  pose proof (S_L_weight_lower ((L1 + L2) / 2)) as HS. fold S in HS.
  match goal with |- sqrt ?e = _ =>
    replace e with (((L2 - L1) / S) * ((L2 - L1) / S))
      by (unfold Rdiv; ring)
  end.
  change (sqrt (Rsqr ((L2 - L1) / S)) = Rabs (L2 - L1) / S).
  rewrite sqrt_Rsqr_abs. unfold Rdiv. rewrite Rabs_mult.
  rewrite (Rabs_pos_eq (/ S)); [reflexivity|].
  left. apply Rinv_0_lt_compat. lra.
Qed.

End Ciede2000Extras.

(** ** More on the palette selection *)

Module PaletteExtras.
Import Int Ciede2000 Palette Props PaletteFacts.

(** *** Sorting the clusters *)


Lemma insert_cluster_Permutation c l : Permutation (insert_cluster c l) (c :: l).
Proof.
  induction l as [|d l IH]; [reflexivity|].
  cbn [insert_cluster]. destruct (size d <=? size c)%nat; [reflexivity|].
  rewrite IH. apply perm_swap.
Qed.

Lemma insert_cluster_sorted c l :
  StronglySorted by_population l -> StronglySorted by_population (insert_cluster c l).
Proof.
  induction 1 as [|d l Hs IH Hd].
  - cbn. constructor; constructor.
  - cbn [insert_cluster]. destruct (Nat.leb_spec (size d) (size c)) as [Hle|Hgt].
    + constructor; [now constructor|].
      constructor; [exact Hle|].
      eapply Forall_impl; [exact Hd|]. unfold by_population. intros x Hx. lia.
    + constructor; [exact IH|].
      rewrite (insert_cluster_Permutation c l).
      constructor; [unfold by_population; lia | exact Hd].
Qed.

Lemma sort_clusters_spec l :
  Permutation (sort_clusters l) l /\ StronglySorted by_population (sort_clusters l).
Proof.
  unfold sort_clusters. induction l as [|c l [IHp IHs]]; cbn [foldr].
  - split; constructor.
  - split.
    + rewrite insert_cluster_Permutation. now constructor.
    + now apply insert_cluster_sorted.
Qed.

(** [sort_clusters] rearranges the clusters into non-increasing order of
    population. *)
Theorem sort_clusters_sorted l :
  Permutation (sort_clusters l) l /\ StronglySorted by_population (sort_clusters l).
Proof. exact (sort_clusters_spec l). Qed.

(** *** The selection phases only append *)

Lemma phase1_prefix clusters n md selected :
  exists more, phase1 clusters n md selected = selected ++ more.
Proof.
  revert selected. induction clusters as [|c rest IH]; intros selected.
  - exists []. now rewrite app_nil_r.
  - cbn [phase1]. destruct (enough n selected).
    + exists []. now rewrite app_nil_r.
    + destruct (is_different md (centroid c) selected).
      * destruct (IH (selected ++ [centroid c])) as [more ->].
        exists (centroid c :: more). now rewrite <- app_assoc.
      * apply IH.
Qed.

Lemma phase2_prefix clusters n selected :
  exists more, phase2 clusters n selected = selected ++ more.
Proof.
  unfold phase2. destruct (enough n selected).
  { exists []. now rewrite app_nil_r. }
  revert selected. induction clusters as [|c rest IH]; intros selected.
  - exists []. now rewrite app_nil_r.
  - cbn [phase2_walk]. destruct (enough n selected).
    + exists []. now rewrite app_nil_r.
    + destruct (_ && _).
      * destruct (IH (selected ++ [centroid c])) as [more ->].
        exists (centroid c :: more). now rewrite <- app_assoc.
      * apply IH.
Qed.

(** With at least one colour requested, phase 1 starts the selection with
    the centroid of the first cluster. *)
Lemma phase1_head c rest n md :
  (1 <= n <= INT_MAX)%Z ->
  exists more, phase1 (c :: rest) n md [] = centroid c :: more.
Proof.
  intros Hn. cbn [phase1]. unfold enough. cbn [length].
  rewrite ExtractFacts.to_size_t_small by lia.
  destruct (Z.leb_spec n (Z.of_nat 0)) as [?|_]; [lia|].
  cbn [is_different forallb app].
  destruct (phase1_prefix rest n md [centroid c]) as [more ->].
  now exists more.
Qed.

(** *** Phase 2 keeps the relaxed diversity *)

Lemma diverse_weaken t t' selected :
  t' <= t -> diverse t selected -> diverse t' selected.
Proof.
  intros Hle Hd i j x y Hij Hi Hj. specialize (Hd i j x y Hij Hi Hj). lra.
Qed.

Lemma phase2_walk_diverse clusters n t selected :
  t <= 10 -> diverse t selected -> diverse t (phase2_walk clusters n selected).
Proof.
  intros Ht. revert selected.
  induction clusters as [|c rest IH]; intros selected Hdiv; [exact Hdiv|].
  cbn [phase2_walk]. destruct (enough n selected); [exact Hdiv|].
  apply IH.
  destruct (negb (already_selected (centroid c) selected)); cbn [andb];
    [|exact Hdiv].
  destruct (is_different 10 (centroid c) selected) eqn:Hd; [|exact Hdiv].
  apply diverse_snoc; [exact Hdiv|].
  apply is_different_spec. rewrite is_different_spec in Hd.
  intros s Hs. specialize (Hd s Hs). lra.
Qed.

(** After the relaxed backfill of phase 2, every two selected centroids are
    still at least [min(min_distance, 10)] apart. *)
Theorem phase2_relaxed_diversity clusters n md :
  diverse (Rmin md 10) (phase2 clusters n (phase1 clusters n md [])).
Proof.
  assert (Hd : diverse (Rmin md 10) (phase1 clusters n md [])).
  { apply (diverse_weaken md); [apply Rmin_l|]. apply phase1_diverse, diverse_nil. }
  unfold phase2. destruct (enough n _); [exact Hd|].
  apply phase2_walk_diverse; [apply Rmin_r | exact Hd].
Qed.

End PaletteExtras.

(** ** More on K-Means *)

Module KMeansExtras.
Import Ciede2000 KMeans Props KMeansFacts.
#[local] Open Scope nat_scope.

(** *** The nearest-centroid search finds a nearest centroid *)


Lemma closest_search centroids p m :
  searched centroids p m (foldl (closest_step centroids p) (FLT_MAX, 0) (seq 0 m)).
Proof.
  induction m as [|m IH].
  - cbn [seq foldl]. split; [intros j Hj; exfalso; lia|].
    left. split; [reflexivity |]. intros j Hj. exfalso. lia.
  - rewrite seq_S, foldl_app. cbn [foldl Nat.add].
    set (acc := foldl _ _ _) in *. destruct IH as [Hmin Hcase].
    unfold closest_step. cbv zeta.
    destruct (decide (ciede2000 p (centroids !!! m) < acc.1)%R) as [Hlt|Hge].
    + unfold searched. cbn [fst snd]. split.
      * intros j Hj. destruct (decide (j = m)) as [->|Hne]; [lra|].
        specialize (Hmin j ltac:(lia)). lra.
      * right. repeat split; [lia | |].
        -- destruct Hcase as [[-> _]|(_ & _ & Hf & _)]; cbn [fst] in *; lra.
        -- intros j Hj. specialize (Hmin j Hj). lra.
    + split.
      * intros j Hj. destruct (decide (j = m)) as [->|Hne]; [lra|].
        apply Hmin. lia.
      * destruct Hcase as [[Hacc Hall]|(H1 & H2 & H3 & H4)].
        -- left. split; [exact Hacc|]. intros j Hj.
           destruct (decide (j = m)) as [->|Hne]; [|apply Hall; lia].
           rewrite Hacc in Hge. cbn [fst] in Hge. lra.
        -- right. repeat split; auto; lia.
Qed.

(** When some centroid is closer than [FLT_MAX], [closest] returns the
    index of a nearest centroid, the smallest such index. *)
Theorem closest_is_nearest centroids k p :
  (exists j, j < k /\ (ciede2000 p (centroids !!! j) < FLT_MAX)%R) ->
  let c := closest centroids k p in
  c < k /\
  (forall j, j < k ->
     (ciede2000 p (centroids !!! c) <= ciede2000 p (centroids !!! j))%R) /\
  (forall j, j < c ->
     (ciede2000 p (centroids !!! c) < ciede2000 p (centroids !!! j))%R).
Proof.
  intros (j0 & Hj0 & Hd0). cbv zeta. unfold closest.
  destruct (closest_search centroids p k) as [Hmin Hcase].
  set (acc := foldl _ _ _) in *.
  destruct Hcase as [[_ Hall]|(H1 & H2 & H3 & H4)].
  - specialize (Hall j0 Hj0). lra.
  - split; [exact H1|]. rewrite <- H2. split; assumption.
Qed.

(** *** Populations and sums per cluster *)


Lemma members_S assignments j n :
  members assignments j (S n) =
  members assignments j n ++ (if decide (assignments !!! n = j) then [n] else []).
Proof.
  unfold members. rewrite seq_S, filter_app. reflexivity.
Qed.

Lemma accumulate_members k pixels assignments m j :
  j < k ->
  let acc := foldl (accumulate_step pixels assignments)
                   (replicate k Lab0, replicate k 0) (seq 0 m) in
  length acc.1 = k /\ length acc.2 = k /\
  acc.2 !!! j = length (members assignments j m) /\
  acc.1 !!! j = foldl lab_add Lab0 ((fun i => pixels !!! i) <$> members assignments j m).
Proof.
  intros Hj. cbv zeta. induction m as [|m IH].
  - cbn [seq foldl fst snd]. rewrite !length_replicate.
    rewrite !lookup_total_replicate_2 by exact Hj. repeat split.
  - rewrite seq_S, foldl_app. cbn [foldl Nat.add].
    set (acc := foldl _ _ (seq 0 m)) in *.
    destruct IH as (H1 & H2 & H3 & H4).
    unfold accumulate_step. cbv zeta. cbn [fst snd].
    rewrite !length_alter, members_S.
    split; [exact H1|]. split; [exact H2|].
    destruct (decide (assignments !!! m = j)) as [Heq|Hne].
    + rewrite Heq.
      rewrite !list_lookup_total_alter_eq by lia.
      rewrite length_app, fmap_app, foldl_app. cbn [length fmap list_fmap foldl].
      rewrite H3, H4. split; [lia | reflexivity].
    + rewrite !list_lookup_total_alter_ne by exact Hne.
      rewrite app_nil_r. split; assumption.
Qed.

(** After the accumulation loop, the population of cluster [j] is the
    number of samples assigned to [j], and its sum is the sum of exactly
    those samples, added in index order. *)
Theorem accumulate_counts_members k pixels assignments j :
  j < k ->
  (accumulate k pixels assignments).2 !!! j
    = length (members assignments j (length pixels)) /\
  (accumulate k pixels assignments).1 !!! j
    = foldl lab_add Lab0
        ((fun i => pixels !!! i) <$> members assignments j (length pixels)).
Proof.
  intros Hj.
  destruct (accumulate_members k pixels assignments (length pixels) j Hj)
    as (_ & _ & H3 & H4).
  split; assumption.
Qed.

Section WithRandom.
Context {RS : RandomSource}.

(** With [max_iters <= 0] the main loop is skipped: the [k] clusters
    returned are the random initial centroids, each one of the samples,
    all with population 0. *)
Theorem kmeans_without_iterations e pixels k max_iters :
  pixels <> [] -> (1 <= k)%Z -> (max_iters <= 0)%Z ->
  let clusters := (kmeans_lab e pixels k max_iters).1 in
  length clusters = Z.to_nat k /\
  forall c, c ∈ clusters -> size c = 0 /\ centroid c ∈ pixels.
Proof.
  intros Hne Hk Hit. unfold kmeans_lab, kmeans_lab_omp.
  destruct (decide _) as [[?|?]|_]; [congruence | lia |].
  cbv zeta. cbn [fst]. unfold kmeans_seeded. cbv zeta.
  replace (Z.to_nat max_iters) with 0 by lia. cbn [loop centroids cluster_sizes].
  destruct (init_centroids_spec (Z.to_nat k) pixels
              (seed_gen (random_device e).1) Hne) as [Hlen Hall].
  split; [rewrite length_map; apply length_seq|].
  intros c Hc. rewrite map_fmap in Hc.
  apply list_elem_of_fmap in Hc as (j & -> & Hj). apply elem_of_seq in Hj.
  cbn [size centroid]. split.
  - apply lookup_total_replicate_2. lia.
  - rewrite Forall_forall in Hall. apply Hall.
    apply list_elem_of_lookup_total_2. lia.
Qed.

End WithRandom.

Lemma FLT_MAX_pos : (0 < FLT_MAX)%R.
Proof.
  unfold FLT_MAX. apply Rmult_lt_0_compat; [|apply pow_lt; lra].
  assert (/ 2 ^ 23 <= 1)%R; [|lra].
  rewrite <- Rinv_1. apply Rinv_le_contravar; [lra|].
  apply pow_R1_Rle. lra.
Qed.

Lemma closest_is_nearest_witness :
  closest [mkLab 50 0 0] 1 (mkLab 50 0 0) < 1.
Proof.
  refine (proj1 (closest_is_nearest [mkLab 50 0 0] 1 (mkLab 50 0 0) _)).
  exists 0. split; [lia|]. cbn [lookup_total list_lookup_total].
  rewrite Ciede2000Extras.ciede2000_self. apply FLT_MAX_pos.
Defined.

Lemma accumulate_counts_members_witness :
  (accumulate 1 Examples.two_samples [0; 0]).2 !!! 0
  = length (members [0; 0] 0 (length Examples.two_samples)).
Proof.
  refine (proj1 (accumulate_counts_members 1 Examples.two_samples [0; 0] 0 _)). lia.
Defined.

Lemma kmeans_without_iterations_witness :
  length (kmeans_lab (RS := CounterSource.counter_source)
            0%Z Examples.two_samples 8 0).1 = Z.to_nat 8.
Proof.
  refine (proj1 (kmeans_without_iterations (RS := CounterSource.counter_source)
                   0%Z Examples.two_samples 8 0 _ _ _)).
  - discriminate.
  - lia.
  - lia.
Defined.

End KMeansExtras.

(** ** More on pixel sampling *)

Module SamplerExtras.
Import Int Buffer Sampler Props SamplerFacts.
#[local] Open Scope Z_scope.


Lemma wrap32_id z : - 2 ^ 31 <= z <= INT_MAX -> wrap32 z = z.
Proof. unfold wrap32, INT_MAX. intros H. Z.div_mod_to_equations. lia. Qed.

Lemma range_spec n x : x ∈ range n <-> 0 <= x < n.
Proof.
  unfold range. rewrite list_elem_of_In, in_map_iff. split.
  - intros (i & <- & Hi). apply in_seq in Hi. lia.
  - intros Hx. exists (Z.to_nat x). split; [lia|]. apply in_seq. lia.
Qed.

Lemma length_range n : length (range n) = Z.to_nat n.
Proof. unfold range. now rewrite length_map, length_seq. Qed.

Lemma length_omap_le {A B} (f : A -> option B) l :
  (length (omap f l) <= length l)%nat.
Proof.
  induction l as [|x l IH]; [reflexivity|].
  cbn [omap list_omap]. destruct (f x); cbn [length]; lia.
Qed.

Lemma length_flat_map_le {A B} (f : A -> list B) l n :
  (forall x, (length (f x) <= n)%nat) ->
  (length (flat_map f l) <= length l * n)%nat.
Proof.
  intros Hf. induction l as [|x l IH]; [reflexivity|].
  cbn [flat_map length]. rewrite length_app. specialize (Hf x). lia.
Qed.

(** Resampling bounds the work: at most [min(width, m) * min(height, m)]
    pixels reach the clustering, whatever the size of the image. *)
Theorem scaled_pixels_bounded img m :
  (length (scaled_pixels img m)
   <= Z.to_nat (Z.min (height img) m) * Z.to_nat (Z.min (width img) m))%nat.
Proof.
  unfold scaled_pixels. cbv zeta.
  rewrite <- (length_range (Z.min (height img) m)).
  apply length_flat_map_le. intros y.
  rewrite <- (length_range (Z.min (width img) m)). apply length_omap_le.
Qed.

Lemma to_size_t_id z : 0 <= z <= INT_MAX -> to_size_t z = z.
Proof. unfold to_size_t, INT_MAX. intros. apply Z.mod_small. lia. Qed.

Lemma wrap32_quotient q c : 0 <= q -> wrap32 q = c -> 0 <= c -> c <= q.
Proof.
  unfold wrap32. intros Hq Hc Hc0.
  pose proof (Z.mod_pos_bound (q + 2 ^ 31) (2 ^ 32) ltac:(lia)).
  pose proof (Z.div_mod (q + 2 ^ 31) (2 ^ 32) ltac:(lia)).
  assert (0 <= (q + 2 ^ 31) / 2 ^ 32) by (apply Z.div_pos; lia).
  lia.
Qed.

Lemma channels_fit size wh c :
  0 <= size -> 0 < wh <= INT_MAX ->
  wrap32 (size / to_size_t (wrap32 wh)) = c -> 0 <= c ->
  wh * c <= size.
Proof.
  intros Hs Hwh Hc Hc0.
  rewrite (wrap32_id wh), (to_size_t_id wh) in Hc by (unfold INT_MAX in *; lia).
  assert (Hq0 : 0 <= size / wh) by (apply Z.div_pos; lia).
  pose proof (wrap32_quotient _ _ Hq0 Hc Hc0) as Hq.
  pose proof (Z.mul_div_le size wh ltac:(lia)) as Hm.
  nia.
Qed.

(** What [decode] guarantees about the pixel buffer. *)
Lemma decode_buffer data img :
  decode data = inr img ->
  0 < width img /\ 0 < height img /\ (channels img = 3 \/ channels img = 4) /\
  (width img * height img <= INT_MAX ->
   width img * height img * channels img <= Z.of_nat (length (pixels img))).
Proof.
  unfold decode. cbv zeta.
  destruct (Z.eqb_spec (Z.of_nat (length data)) 0) as [?|Hne]; [discriminate|].
  destruct (Z.ltb_spec (Z.of_nat (length data)) 8) as [?|H8]; [discriminate|].
  set (w := read_int data 0). set (h := read_int data 4).
  destruct (Z.leb_spec w 0) as [?|Hw]; [discriminate|].
  destruct (Z.leb_spec h 0) as [?|Hh]; [discriminate|]. cbn [orb].
  set (size := Z.of_nat (length data) - 8).
  unfold int_mul.
  destruct (Z.eqb_spec (to_size_t (wrap32 (w * h))) 0) as [?|_]; [discriminate|].
  destruct (wrap32 (size / to_size_t (wrap32 (w * h)))) as [|c|c] eqn:Hc;
    [discriminate | | discriminate].
  destruct (Z.eqb_spec (Z.pos c) 3) as [Hc3|Hc3];
    destruct (Z.eqb_spec (Z.pos c) 4) as [Hc4|Hc4];
    cbn [negb andb]; try discriminate; intros [= <-];
    cbn [width height channels pixels];
    (split; [exact Hw|]; split; [exact Hh|]; split; [lia|]);
    intros Hwh; rewrite length_drop;
    pose proof (channels_fit size (w * h) (Z.pos c) ltac:(lia) ltac:(nia) Hc ltac:(lia));
    lia.
Qed.

Lemma quot_scaled a n t : 0 <= a < t -> 0 < n -> t <= n -> 0 <= Z.quot (a * n) t < n.
Proof.
  intros Ha Hn Ht. rewrite Z.quot_div_nonneg by nia. split.
  - apply Z.div_pos; nia.
  - apply Z.div_lt_upper_bound; nia.
Qed.

Lemma src_index_value img tw th x y :
  0 < width img -> 0 < height img -> 0 < channels img ->
  width img * height img * channels img <= INT_MAX ->
  tw <= width img -> th <= height img ->
  tw * width img <= INT_MAX -> th * height img <= INT_MAX ->
  0 <= x < tw -> 0 <= y < th ->
  let src_x := Z.quot (x * width img) tw in
  let src_y := Z.quot (y * height img) th in
  src_index img tw th x y = (src_y * width img + src_x) * channels img /\
  0 <= src_x < width img /\ 0 <= src_y < height img.
Proof.
  intros Hw Hh Hc Hwhc Htw Hth Htww Hthh Hx Hy. cbv zeta.
  pose proof (quot_scaled x (width img) tw Hx Hw Htw) as Hsx.
  pose proof (quot_scaled y (height img) th Hy Hh Hth) as Hsy.
  unfold src_index, int_mul, int_add. cbv zeta.
  rewrite (wrap32_id (x * width img)) by (unfold INT_MAX in *; nia).
  rewrite (wrap32_id (y * height img)) by (unfold INT_MAX in *; nia).
  set (sx := Z.quot (x * width img) tw) in *.
  set (sy := Z.quot (y * height img) th) in *.
  assert (Hwh : width img * height img <= INT_MAX) by nia.
  assert (Hp : 0 <= sy * width img + sx <= width img * height img - 1) by nia.
  rewrite (wrap32_id (sy * width img)) by (unfold INT_MAX in *; nia).
  rewrite (wrap32_id (sy * width img + sx)) by (unfold INT_MAX in *; lia).
  rewrite wrap32_id by (unfold INT_MAX in *; nia).
  auto.
Qed.

(** When no product overflows an [int], every byte that the resampling
    loop reads for a target pixel lies inside the pixel buffer. *)
Theorem sample_reads_in_bounds data img m x y :
  decode data = inr img ->
  width img * height img * channels img <= INT_MAX ->
  Z.min (width img) m * width img <= INT_MAX ->
  Z.min (height img) m * height img <= INT_MAX ->
  0 <= x < Z.min (width img) m -> 0 <= y < Z.min (height img) m ->
  let idx := src_index img (Z.min (width img) m) (Z.min (height img) m) x y in
  forall i, 0 <= i < channels img ->
    int_add idx i = idx + i /\
    0 <= idx + i < Z.of_nat (length (pixels img)).
Proof.
  intros Hd Hwhc Htw Hth Hx Hy. cbv zeta. intros i Hi.
  destruct (decode_buffer data img Hd) as (Hw & Hh & Hc & Hbuf).
  assert (Hwh : width img * height img <= INT_MAX) by nia.
  specialize (Hbuf Hwh).
  destruct (src_index_value img (Z.min (width img) m) (Z.min (height img) m) x y)
    as (Hidx & Hsx & Hsy); try lia.
  rewrite Hidx.
  set (sx := Z.quot (x * width img) _) in *.
  set (sy := Z.quot (y * height img) _) in *.
  assert (Hp : 0 <= sy * width img + sx <= width img * height img - 1) by nia.
  assert (Hq : 0 <= (sy * width img + sx) * channels img
               <= width img * height img * channels img - channels img) by nia.
  unfold int_add. rewrite wrap32_id by (unfold INT_MAX in *; lia).
  lia.
Qed.

(** An image that is not larger than [max_image_size] is not resampled:
    the target pixel [(x, y)] is the source pixel [(x, y)]. *)
Theorem small_image_not_resampled data img m x y :
  decode data = inr img ->
  width img <= m -> height img <= m ->
  width img * height img * channels img <= INT_MAX ->
  width img * width img <= INT_MAX ->
  height img * height img <= INT_MAX ->
  0 <= x < width img -> 0 <= y < height img ->
  src_index img (Z.min (width img) m) (Z.min (height img) m) x y
  = (y * width img + x) * channels img.
Proof.
  intros Hd Hwm Hhm Hwhc Hww Hhh Hx Hy.
  destruct (decode_buffer data img Hd) as (Hw & Hh & Hc & _).
  rewrite !Z.min_l by lia.
  destruct (src_index_value img (width img) (height img) x y)
    as (Hidx & _ & _); try lia.
  rewrite Hidx. rewrite !Z.quot_mul by lia. reflexivity.
Qed.

Lemma sample_reads_in_bounds_witness :
  int_add (src_index Examples.grey_decoded 10 1 3 0) 2
  = src_index Examples.grey_decoded 10 1 3 0 + 2 /\
  0 <= src_index Examples.grey_decoded 10 1 3 0 + 2
    < Z.of_nat (length (pixels Examples.grey_decoded)).
Proof.
  refine (sample_reads_in_bounds Examples.grey_image Examples.grey_decoded 150 3 0
            _ _ _ _ _ _ 2 _).
  - vm_compute. reflexivity.
  - vm_compute. discriminate.
  - vm_compute. discriminate.
  - vm_compute. discriminate.
  - vm_compute. split; [discriminate | reflexivity].
  - vm_compute. split; [discriminate | reflexivity].
  - vm_compute. split; [discriminate | reflexivity].
Defined.

Lemma small_image_not_resampled_witness :
  src_index Examples.grey_decoded
    (Z.min (width Examples.grey_decoded) 150)
    (Z.min (height Examples.grey_decoded) 150) 3 0
  = (0 * width Examples.grey_decoded + 3) * channels Examples.grey_decoded.
Proof.
  refine (small_image_not_resampled Examples.grey_image Examples.grey_decoded 150 3 0
            _ _ _ _ _ _ _ _).
  - vm_compute. reflexivity.
  - vm_compute. discriminate.
  - vm_compute. discriminate.
  - vm_compute. discriminate.
  - vm_compute. discriminate.
  - vm_compute. discriminate.
  - vm_compute. split; [discriminate | reflexivity].
  - vm_compute. split; [discriminate | reflexivity].
Defined.

(** [sample_pixel] reads the three colour bytes at [src_index]. *)
Lemma sample_pixel_reads img tw th x y rgb :
  sample_pixel img tw th x y = Some rgb ->
  let idx := src_index img tw th x y in
  rgb = mkRGB (byte_at (pixels img) idx) (byte_at (pixels img) (int_add idx 1))
              (byte_at (pixels img) (int_add idx 2)).
Proof.
  intros H. apply sample_pixel_Some in H. cbv zeta in H. apply H.
Qed.

End SamplerExtras.

(** ** Sampling without overflow *)

Module SamplingFacts.
Import Int Buffer Sampler Props SamplerFacts SamplerExtras.
#[local] Open Scope Z_scope.

Lemma reserve_rgb_ok n : 0 <= n <= INT_MAX -> reserve_rgb_throws n = false.
Proof.
  intros H. unfold reserve_rgb_throws. rewrite to_size_t_id by exact H.
  apply Z.ltb_ge. unfold INT_MAX in H.
  change rgb_vector_max_size with 3074457345618258602. lia.
Qed.

Lemma reserve_rgb_negative n : - 2 ^ 31 <= n < 0 -> reserve_rgb_throws n = true.
Proof.
  intros H. unfold reserve_rgb_throws, to_size_t. apply Z.ltb_lt.
  change rgb_vector_max_size with 3074457345618258602.
  Z.div_mod_to_equations. lia.
Qed.

Lemma in_buffer_spec l i :
  in_buffer l i = true <-> 0 <= i < Z.of_nat (length l).
Proof.
  unfold in_buffer. rewrite andb_true_iff, Z.leb_le, Z.ltb_lt. reflexivity.
Qed.

Lemma byte_at_lookup l i :
  0 <= i -> byte_at l i = default 0 (l !! Z.to_nat i).
Proof.
  intros Hi. unfold byte_at. destruct (Z.ltb_spec i 0); [lia | reflexivity].
Qed.

(** The number of target pixels is not negative and, without overflow, is
    what [reserve] is called with. *)
Lemma target_count data img m :
  decode data = inr img -> no_overflow img m ->
  let n := int_mul (Z.min (width img) m) (Z.min (height img) m) in
  n = Z.min (width img) m * Z.min (height img) m /\ 0 <= n <= INT_MAX.
Proof.
  intros Hd (_ & _ & _ & Hn). cbv zeta.
  destruct (decode_buffer data img Hd) as (Hw & Hh & _).
  assert (H0 : 0 <= Z.min (width img) m * Z.min (height img) m).
  { destruct (Z_le_gt_dec m 0).
    - rewrite !Z.min_r by lia. nia.
    - apply Z.mul_nonneg_nonneg; lia. }
  unfold int_mul. rewrite wrap32_id by (unfold INT_MAX in *; lia). lia.
Qed.

Lemma scaled_reserve_ok data img m :
  decode data = inr img -> no_overflow img m ->
  reserve_rgb_throws (int_mul (Z.min (width img) m) (Z.min (height img) m)) = false.
Proof.
  intros Hd Hno. apply reserve_rgb_ok.
  apply (target_count data img m Hd Hno).
Qed.

(** Without overflow, the loop body at a target position reads the
    channels of one source pixel, inside the buffer. *)
Lemma position_reads data img m x y :
  decode data = inr img -> no_overflow img m ->
  0 <= x < Z.min (width img) m -> 0 <= y < Z.min (height img) m ->
  let tw := Z.min (width img) m in
  let th := Z.min (height img) m in
  let idx := src_index img tw th x y in
  idx = (Z.quot (y * height img) th * width img + Z.quot (x * width img) tw)
        * channels img /\
  forall i, 0 <= i < channels img ->
    int_add idx i = idx + i /\ 0 <= idx + i < Z.of_nat (length (pixels img)).
Proof.
  intros Hd (Hwhc & Htw & Hth & _) Hx Hy. cbv zeta.
  destruct (decode_buffer data img Hd) as (Hw & Hh & Hc & Hbuf).
  assert (Hwh : width img * height img <= INT_MAX) by nia.
  specialize (Hbuf Hwh).
  destruct (src_index_value img (Z.min (width img) m) (Z.min (height img) m) x y)
    as (Hidx & Hsx & Hsy); try lia.
  rewrite Hidx. split; [reflexivity|]. intros i Hi.
  set (sx := Z.quot (x * width img) _) in *.
  set (sy := Z.quot (y * height img) _) in *.
  assert (Hp : 0 <= sy * width img + sx <= width img * height img - 1) by nia.
  assert (Hq : 0 <= (sy * width img + sx) * channels img
               <= width img * height img * channels img - channels img) by nia.
  unfold int_add. rewrite wrap32_id by (unfold INT_MAX in *; lia).
  lia.
Qed.

Lemma forallb_range (f : Z -> bool) n :
  (forall x, 0 <= x < n -> f x = true) -> forallb f (range n) = true.
Proof.
  intros Hf. apply forallb_forall. intros x Hx.
  apply Hf. apply range_spec. now apply list_elem_of_In.
Qed.

Lemma reads_in_bounds_ok data img m :
  decode data = inr img -> no_overflow img m -> reads_in_bounds img m = true.
Proof.
  intros Hd Hno. unfold reads_in_bounds. cbv zeta.
  apply forallb_range. intros y Hy. apply forallb_range. intros x Hx.
  destruct (position_reads data img m x y Hd Hno Hx Hy) as [_ Hr].
  destruct (decode_buffer data img Hd) as (_ & _ & Hc & _).
  unfold reads_ok. cbv zeta.
  set (idx := src_index _ _ _ _ _) in *.
  assert (H0 : in_buffer (pixels img) idx = true).
  { apply in_buffer_spec. destruct (Hr 0 ltac:(lia)) as [_ H]. lia. }
  assert (Hi : forall i, 0 <= i < channels img ->
                         in_buffer (pixels img) (int_add idx i) = true).
  { intros i Hi. destruct (Hr i Hi) as [-> H]. now apply in_buffer_spec. }
  rewrite H0, (Hi 1), (Hi 2) by lia. cbn [andb].
  destruct (Z.eqb_spec (channels img) 4) as [H4|_]; [|reflexivity].
  cbn [negb orb]. apply Hi. lia.
Qed.

Lemma keep_iff (l : list Z) (c idx : Z) :
  (c = 3 \/ c = 4) ->
  (forall i, 0 <= i < c -> int_add idx i = idx + i /\ 0 <= idx + i) ->
  match
    (if (c =? 4) && (byte_at l (int_add idx 3) <? 128) then None
     else
       if (240 <? Z.quot (byte_at l idx + byte_at l (int_add idx 1)
                          + byte_at l (int_add idx 2)) 3)
          || (Z.quot (byte_at l idx + byte_at l (int_add idx 1)
                      + byte_at l (int_add idx 2)) 3 <? 20)
       then None
       else Some (mkRGB (byte_at l idx) (byte_at l (int_add idx 1))
                        (byte_at l (int_add idx 2))))
  with Some _ => true | None => false end
  = negb ((c =? 4) && (default 0 (l !! Z.to_nat (idx + 3)) <? 128))
    && negb ((240 <? Z.quot (default 0 (l !! Z.to_nat (idx + 0))
                             + default 0 (l !! Z.to_nat (idx + 1))
                             + default 0 (l !! Z.to_nat (idx + 2))) 3)
             || (Z.quot (default 0 (l !! Z.to_nat (idx + 0))
                         + default 0 (l !! Z.to_nat (idx + 1))
                         + default 0 (l !! Z.to_nat (idx + 2))) 3 <? 20)).
Proof.
  intros Hc Hr.
  assert (Hb : forall i, 0 <= i < c ->
             byte_at l (int_add idx i) = default 0 (l !! Z.to_nat (idx + i))).
  { intros i Hi. destruct (Hr i Hi) as [-> H]. now apply byte_at_lookup. }
  assert (Hb0 : byte_at l idx = default 0 (l !! Z.to_nat (idx + 0))).
  { rewrite Z.add_0_r. apply byte_at_lookup. destruct (Hr 0 ltac:(lia)). lia. }
  rewrite Hb0, (Hb 1), (Hb 2) by lia.
  generalize (default 0 (l !! Z.to_nat (idx + 0))).
  generalize (default 0 (l !! Z.to_nat (idx + 1))).
  generalize (default 0 (l !! Z.to_nat (idx + 2))).
  intros b g r.
  generalize (Z.quot (r + g + b) 3). intros br.
  destruct (Z.eqb_spec c 4) as [H4|H4]; cbn [andb negb].
  - rewrite (Hb 3) by lia.
    destruct (_ <? 128); cbn [negb andb]; [reflexivity|].
    destruct (_ || _); reflexivity.
  - destruct (_ || _); reflexivity.
Qed.

Lemma sample_pixel_at img tw th x y :
  sample_pixel img tw th x y =
  let l := pixels img in
  let c := channels img in
  let idx := src_index img tw th x y in
  if (c =? 4) && (byte_at l (int_add idx 3) <? 128) then None
  else
    if (240 <? Z.quot (byte_at l idx + byte_at l (int_add idx 1)
                       + byte_at l (int_add idx 2)) 3)
       || (Z.quot (byte_at l idx + byte_at l (int_add idx 1)
                   + byte_at l (int_add idx 2)) 3 <? 20)
    then None
    else Some (mkRGB (byte_at l idx) (byte_at l (int_add idx 1))
                     (byte_at l (int_add idx 2))).
Proof. unfold sample_pixel, src_index. reflexivity. Qed.

(** The loop body keeps a pixel exactly when the resampled pixel survives
    the two filters. *)
Lemma sample_pixel_survives data img m x y :
  decode data = inr img -> no_overflow img m ->
  0 <= x < Z.min (width img) m -> 0 <= y < Z.min (height img) m ->
  let tw := Z.min (width img) m in
  let th := Z.min (height img) m in
  match sample_pixel img tw th x y with Some _ => true | None => false end
  = survives img tw th (x, y).
Proof.
  intros Hd Hno Hx Hy. cbv zeta.
  destruct (position_reads data img m x y Hd Hno Hx Hy) as [Hidx Hr].
  destruct (decode_buffer data img Hd) as (_ & _ & Hc & _).
  unfold survives, resampled. cbv zeta. cbn [fst snd].
  rewrite <- Hidx. clear Hidx.
  rewrite sample_pixel_at.
  refine (keep_iff (pixels img) (channels img)
                 (src_index img (Z.min (width img) m) (Z.min (height img) m) x y) Hc _).
  intros i Hi. destruct (Hr i Hi) as [H1 H2]. split; [exact H1|]. clear - H2. lia.
Qed.

Lemma length_omap_filter {A B} (f : A -> option B) (g : A -> bool) l :
  (forall x, x ∈ l -> match f x with Some _ => true | None => false end = g x) ->
  length (omap f l) = length (List.filter g l).
Proof.
  induction l as [|x l IH]; intros H; [reflexivity|].
  cbn [omap list_omap List.filter].
  rewrite <- (H x) by constructor.
  destruct (f x); cbn [length]; rewrite IH; auto;
    intros; apply H; now constructor.
Qed.

Lemma filter_map_pair (g : Z * Z -> bool) (y : Z) l :
  length (List.filter g (map (fun x => (x, y)) l))
  = length (List.filter (fun x => g (x, y)) l).
Proof.
  induction l as [|x l IH]; [reflexivity|].
  cbn [map List.filter]. destruct (g (x, y)); cbn [length]; now rewrite IH.
Qed.

(** The pixels that the resampling loops keep are as many as the resampled
    pixels that survive the two filters. *)
Lemma scaled_pixels_survivors data img m :
  decode data = inr img -> no_overflow img m ->
  length (scaled_pixels img m) = survivors img m.
Proof.
  intros Hd Hno. unfold scaled_pixels, survivors, targets. cbv zeta.
  set (tw := Z.min (width img) m). set (th := Z.min (height img) m).
  assert (Hrows : forall ys, (forall y, y ∈ ys -> 0 <= y < th) ->
    length (flat_map (fun y => omap (fun x => sample_pixel img tw th x y) (range tw)) ys)
    = length (List.filter (survives img tw th)
                (flat_map (fun y => map (fun x => (x, y)) (range tw)) ys))).
  { induction ys as [|y ys IH]; intros Hys; [reflexivity|].
    cbn [flat_map]. rewrite List.filter_app, !length_app.
    rewrite IH by (intros; apply Hys; now constructor).
    f_equal. rewrite filter_map_pair. apply length_omap_filter.
    intros x Hx. apply range_spec in Hx.
    apply (sample_pixel_survives data img m x y Hd Hno Hx).
    apply Hys. constructor. }
  apply Hrows. intros y Hy. now apply range_spec.
Qed.

End SamplingFacts.

(** ** The extraction entry point on images without overflow *)

Module ExtractClaims.
Import Int Buffer Sampler KMeans Palette ColorSpace Props.
Import SamplerFacts PaletteFacts ExtractFacts SamplerExtras SamplingFacts.

Section WithRandom.
Context {RS : RandomSource}.

(** C1: for every valid decoded image (positive extents, 3 or 4 channels,
    no [int] product of the resampling overflowing) of which at least 10
    resampled pixels survive the two filters, and every requested palette
    size [n >= 1], [extract_colors] returns a palette of exactly [n] RGB
    triples. *)
Theorem extract_colors_palette_size e data n md m img :
  decode data = inr img ->
  no_overflow img m ->
  (10 <= survivors img m)%nat ->
  (1 <= n <= INT_MAX)%Z ->
  exists palette,
    extract_colors e data n md m = inr palette /\
    Z.of_nat (length palette) = n /\
    Forall is_rgb_triple palette.
Proof.
  intros Hd Hno Hlen Hn.
  rewrite <- (scaled_pixels_survivors data img m Hd Hno) in Hlen.
  destruct (extract_colors_unfold e data n md m img Hd
              (scaled_reserve_ok data img m Hd Hno)
              (reads_in_bounds_ok data img m Hd Hno) Hlen)
    as (clusters & g & ->).
  { apply reserve_ok. lia. }
  eexists. split; [reflexivity|]. split.
  - rewrite length_map, selection_length by lia. lia.
  - apply Forall_forall. intros t Ht.
    apply list_elem_of_In, in_map_iff in Ht as (lab & <- & _).
    apply lab_to_rgb_triple.
Qed.

(** C3: for a decoded image none of whose [int] products overflows,
    extraction fails with the insufficient-pixels error if and only if
    fewer than 10 of the resampled pixels survive the alpha filter (alpha
    below 128 is dropped when there are 4 channels) and the brightness
    filter ([(r + g + b) / 3] above 240 or below 20 is dropped); and an RGBA
    image whose pixels all have alpha 0 fails in this way.  The result is
    then the error, not a palette. *)
Theorem insufficient_pixels_iff e data n md m img :
  decode data = inr img ->
  no_overflow img m ->
  (extract_colors e data n md m = inl insufficient_pixels
   <-> (survivors img m < 10)%nat)
  /\ (channels img = 4%Z -> alpha_all_zero (pixels img) = true ->
      survivors img m = 0%nat /\
      extract_colors e data n md m = inl insufficient_pixels).
Proof.
  intros Hd Hno.
  pose proof (extract_colors_insufficient e data n md m img Hd
                (scaled_reserve_ok data img m Hd Hno)
                (reads_in_bounds_ok data img m Hd Hno)) as Hiff.
  rewrite (scaled_pixels_survivors data img m Hd Hno) in Hiff.
  split; [exact Hiff|].
  intros Hc Hz.
  assert (H0 : survivors img m = 0%nat).
  { rewrite <- (scaled_pixels_survivors data img m Hd Hno).
    now rewrite scaled_pixels_transparent. }
  split; [exact H0|]. apply Hiff. lia.
Qed.

(** C10: [num_colors] is not validated: with [num_colors = 0], an image
    that passes the input checks, overflows no [int] product and keeps at
    least 10 pixels after filtering yields no error and the empty
    palette. *)
Theorem extract_colors_zero_colors e data md m img :
  decode data = inr img ->
  no_overflow img m ->
  (10 <= survivors img m)%nat ->
  extract_colors e data 0 md m = inr [].
Proof.
  intros Hd Hno Hlen.
  rewrite <- (scaled_pixels_survivors data img m Hd Hno) in Hlen.
  destruct (extract_colors_unfold e data 0 md m img Hd
              (scaled_reserve_ok data img m Hd Hno)
              (reads_in_bounds_ok data img m Hd Hno) Hlen)
    as (clusters & g & ->).
  { reflexivity. }
  reflexivity.
Qed.

End WithRandom.

Lemma extract_colors_palette_size_witness :
  exists palette,
    extract_colors (RS := CounterSource.counter_source)
      0%Z Examples.grey_image 5 20 150 = inr palette /\
    Z.of_nat (length palette) = 5%Z /\ Forall is_rgb_triple palette.
Proof.
  refine (extract_colors_palette_size (RS := CounterSource.counter_source)
            0%Z Examples.grey_image 5 20 150 Examples.grey_decoded _ _ _ _).
  - vm_compute. reflexivity.
  - repeat split; vm_compute; discriminate.
  - vm_compute. lia.
  - unfold INT_MAX. lia.
Defined.

Lemma insufficient_pixels_iff_witness :
  extract_colors (RS := CounterSource.counter_source)
    0%Z Examples.transparent_image 5 20 150 = inl insufficient_pixels.
Proof.
  refine (proj2 (proj2 (insufficient_pixels_iff
                          (RS := CounterSource.counter_source)
                          0%Z Examples.transparent_image 5 20 150
                          Examples.transparent_decoded _ _) _ _)).
  - vm_compute. reflexivity.
  - repeat split; vm_compute; discriminate.
  - reflexivity.
  - reflexivity.
Defined.

Lemma extract_colors_zero_colors_witness :
  extract_colors (RS := CounterSource.counter_source)
    0%Z Examples.grey_image 0 20 150 = inr [].
Proof.
  refine (extract_colors_zero_colors (RS := CounterSource.counter_source)
            0%Z Examples.grey_image 20 150 Examples.grey_decoded _ _ _).
  - vm_compute. reflexivity.
  - repeat split; vm_compute; discriminate.
  - vm_compute. lia.
Defined.

End ExtractClaims.

(** ** More on the extraction entry point *)

Module ExtractExtras.
Import Int Buffer Sampler KMeans Palette ColorSpace Props.
Import SamplerFacts PaletteFacts KMeansFacts ExtractFacts PaletteExtras SamplerExtras.
Import SamplingFacts.

Section WithRandom.
Context {RS : RandomSource}.


Lemma extract_colors_selection e data n md m img :
  decode data = inr img ->
  reserve_rgb_throws (int_mul (Z.min (width img) m) (Z.min (height img) m)) = false ->
  reads_in_bounds img m = true ->
  (10 <= length (scaled_pixels img m))%nat ->
  reserve_throws n = false ->
  exists g,
    extract_colors e data n md m =
    inr (map (fun lab => to_tuple (lab_to_rgb lab))
             (take (Z.to_nat (to_size_t n))
                   (phase3 n md (phase2 (sorted_clusters e img m) n
                                   (phase1 (sorted_clusters e img m) n md []), g)).1)).
Proof.
  intros Hd Hrgb Hreads Hlen Hr. unfold extract_colors. rewrite Hd. cbv zeta.
  rewrite Hrgb, Hreads. cbn [negb].
  destruct (Nat.ltb_spec (length (scaled_pixels img m)) 10) as [?|_]; [lia|].
  rewrite Hr.
  exists (seed_gen (random_device
            (kmeans_lab (subsample e (scaled_pixels img m)).2
                        (lab_samples e img m) 8 30).2).1).
  unfold sorted_clusters, lab_samples. reflexivity.
Qed.

(** *** The subsampling cap *)

Lemma subsample_spec e (l : list RGB) :
  length (subsample e l).1 = Nat.min (length l) 5000 /\
  (forall p, p ∈ (subsample e l).1 -> p ∈ l) /\
  ((length l <= 5000)%nat -> (subsample e l).1 = l).
Proof.
  unfold subsample. destruct (Nat.ltb_spec 5000 (length l)) as [Hgt|Hle]; cbn [fst].
  - pose proof (shuffle_Permutation RGB l (seed_gen (random_device e).1)) as Hp.
    split; [|split].
    + rewrite length_take, (Permutation_length Hp). lia.
    + intros p Hin. apply subseteq_take in Hin.
      apply list_elem_of_In. eapply Permutation_in; [exact Hp|].
      now apply list_elem_of_In.
    + intros. lia.
  - split; [lia|]. split; auto.
Qed.

(** The random subsampling keeps at most 5000 pixels, all of them pixels of
    its input, and keeps every pixel when there are at most 5000. *)
Theorem subsample_cap e (l : list RGB) :
  length (subsample e l).1 = Nat.min (length l) 5000 /\
  (forall p, p ∈ (subsample e l).1 -> p ∈ l) /\
  ((length l <= 5000)%nat -> (subsample e l).1 = l).
Proof. exact (subsample_spec e l). Qed.

Lemma lab_samples_nonempty e img m :
  (10 <= length (scaled_pixels img m))%nat -> lab_samples e img m <> [].
Proof.
  intros Hlen. unfold lab_samples.
  destruct (subsample_spec e (scaled_pixels img m)) as [Hl _].
  intros Hnil. apply (f_equal length) in Hnil.
  rewrite length_map, Hl in Hnil. cbn in Hnil. lia.
Qed.

Lemma sorted_clusters_length e img m :
  (10 <= length (scaled_pixels img m))%nat ->
  length (sorted_clusters e img m) = 8%nat.
Proof.
  intros Hlen. unfold sorted_clusters.
  rewrite (Permutation_length (proj1 (sort_clusters_sorted _))).
  unfold kmeans_lab, kmeans_lab_omp.
  destruct (decide _) as [[Hnil|?]|_]; [|lia|].
  - now apply lab_samples_nonempty in Hnil.
  - cbn [fst]. unfold kmeans_seeded. cbv zeta. now rewrite length_map, length_seq.
Qed.

Lemma phase3_prefix n md st :
  exists more, (phase3 n md st).1 = st.1 ++ more.
Proof.
  rewrite phase3_iter.
  induction (Z.to_nat (to_size_t n) - length st.1)%nat as [|k [more IH]].
  - exists []. now rewrite app_nil_r.
  - rewrite Nat.iter_succ.
    destruct (phase3_body_spec md (Nat.iter k (phase3_body md) st))
      as [[_ ->]|(_ & -> & _)]; cbn [fst]; rewrite IH, <- app_assoc; eauto.
Qed.

(** The dominant colour comes first: for a decoded image that overflows
    no [int] product and keeps at least 10 pixels, when at least one colour
    is requested, the first entry of the palette is the centroid of the
    first cluster in the sorted order, a cluster of largest population. *)
Theorem dominant_colour_first e data n md m img :
  decode data = inr img ->
  no_overflow img m ->
  (10 <= length (scaled_pixels img m))%nat ->
  (1 <= n <= INT_MAX)%Z ->
  exists c rest palette,
    sorted_clusters e img m = c :: rest /\
    Forall (fun d => (size d <= size c)%nat) rest /\
    extract_colors e data n md m
    = inr (to_tuple (lab_to_rgb (centroid c)) :: palette).
Proof.
  intros Hd Hno Hlen Hn.
  destruct (extract_colors_selection e data n md m img Hd
              (scaled_reserve_ok data img m Hd Hno)
              (reads_in_bounds_ok data img m Hd Hno) Hlen) as [g ->].
  { apply reserve_ok. lia. }
  pose proof (sorted_clusters_length e img m Hlen) as Hl8.
  assert (Hsorted : StronglySorted by_population (sorted_clusters e img m))
    by (unfold sorted_clusters; apply sort_clusters_sorted).
  destruct (sorted_clusters e img m) as [|c rest]; [discriminate|].
  exists c, rest.
  destruct (phase1_head c rest n md Hn) as [m1 ->].
  destruct (phase2_prefix (c :: rest) n (centroid c :: m1)) as [m2 ->].
  destruct (phase3_prefix n md ((centroid c :: m1) ++ m2, g)) as [m3 ->].
  cbn [fst]. rewrite to_size_t_small by lia.
  destruct (Z.to_nat n) as [|n'] eqn:Hn'; [lia|].
  cbn [app take map]. eexists. split; [reflexivity|]. split; [|reflexivity].
  apply StronglySorted_inv in Hsorted as [_ Hall]. exact Hall.
Qed.

(** *** Error behaviour *)

(** The header checks are the only source of [std::invalid_argument].
    [std::length_error] comes from the two calls of [reserve]: from
    [scaled_pixels.reserve] whenever the [int] product
    [target_width * target_height] is negative, as it is for a negative
    [max_image_size] whose square wraps; and, on an image that overflows no
    product, from [selected_colors.reserve(num_colors)] exactly when at
    least 10 pixels survive and [num_colors] is negative: a negative size
    is not rejected as an invalid argument. *)
Theorem extract_colors_error_origin e data n md m :
  (- 2 ^ 31 <= n <= INT_MAX)%Z ->
  (forall why, extract_colors e data n md m = inl (invalid_argument why)
               <-> decode data = inl (invalid_argument why))
  /\ (forall img, decode data = inr img ->
        (int_mul (Z.min (width img) m) (Z.min (height img) m) < 0)%Z ->
        extract_colors e data n md m = inl length_error)
  /\ (forall img, decode data = inr img -> no_overflow img m ->
        (extract_colors e data n md m = inl length_error
         <-> (10 <= survivors img m)%nat /\ (n < 0)%Z)).
Proof.
  intros Hn. split; [|split].
  - intros why. unfold extract_colors.
    destruct (decode data) as [err|img] eqn:Hd.
    + split; intros [= ->]; reflexivity.
    + cbv zeta. repeat (destruct (_ : bool)); split; discriminate.
  - intros img Hd Hneg. unfold extract_colors. rewrite Hd. cbv zeta.
    rewrite reserve_rgb_negative; [reflexivity|].
    split; [|exact Hneg]. unfold int_mul, wrap32.
    pose proof (Z.mod_pos_bound
                  (Z.min (width img) m * Z.min (height img) m + 2 ^ 31) (2 ^ 32)
                  ltac:(lia)). lia.
  - intros img Hd Hno.
    rewrite <- (scaled_pixels_survivors data img m Hd Hno).
    unfold extract_colors. rewrite Hd. cbv zeta.
    rewrite (scaled_reserve_ok data img m Hd Hno),
            (reads_in_bounds_ok data img m Hd Hno). cbn [negb].
    destruct (Nat.ltb_spec (length (scaled_pixels img m)) 10) as [Hlt|Hge].
    + split; [discriminate | lia].
    + destruct (Z_lt_ge_dec n 0) as [Hneg|Hpos].
      * rewrite reserve_negative by lia. split; auto.
      * rewrite reserve_ok by lia. split; [discriminate | lia].
Qed.

(** *** Dark images *)

Lemma byte_at_bound (l : list Z) i hi :
  (0 <= hi)%Z -> Forall (fun b => (0 <= b <= hi)%Z) l ->
  (0 <= byte_at l i <= hi)%Z.
Proof.
  intros Hhi Hall. unfold byte_at. destruct (i <? 0)%Z; [lia|].
  destruct (l !! Z.to_nat i) as [b|] eqn:Hb; cbn; [|lia].
  rewrite Forall_forall in Hall. apply Hall.
  eapply list_elem_of_lookup_2. exact Hb.
Qed.

(** A decoded image that overflows no [int] product and whose every byte
    is below 20 (so every pixel is darker than the brightness floor) yields
    the insufficient-pixels error. *)
Theorem dark_image_insufficient e data n md m img :
  decode data = inr img ->
  no_overflow img m ->
  Forall (fun b => (0 <= b <= 19)%Z) (pixels img) ->
  extract_colors e data n md m = inl insufficient_pixels.
Proof.
  intros Hd Hno Hall.
  apply (extract_colors_insufficient e data n md m img Hd
           (scaled_reserve_ok data img m Hd Hno)
           (reads_in_bounds_ok data img m Hd Hno)).
  assert (Hnil : scaled_pixels img m = []).
  { unfold scaled_pixels. cbv zeta. apply flat_map_nil. intros y.
    apply omap_none. intros x. unfold sample_pixel. cbv zeta.
    destruct (_ && _); [reflexivity|].
    set (idx := int_mul _ (channels img)).
    pose proof (byte_at_bound (pixels img) idx 19 ltac:(lia) Hall).
    pose proof (byte_at_bound (pixels img) (int_add idx 1) 19 ltac:(lia) Hall).
    pose proof (byte_at_bound (pixels img) (int_add idx 2) 19 ltac:(lia) Hall).
    set (r := byte_at _ idx) in *. set (g := byte_at _ (int_add idx 1)) in *.
    set (b := byte_at _ (int_add idx 2)) in *.
    assert (Hq : (Z.quot (r + g + b) 3 < 20)%Z).
    { rewrite Z.quot_div_nonneg by lia. apply Z.div_lt_upper_bound; lia. }
    destruct (Z.ltb_spec 240 (Z.quot (r + g + b) 3)) as [?|_]; [reflexivity|].
    destruct (Z.ltb_spec (Z.quot (r + g + b) 3) 20) as [_|?]; [reflexivity | lia]. }
  rewrite Hnil. cbn [length]. lia.
Qed.

End WithRandom.

Lemma dominant_colour_first_witness :
  exists c rest palette,
    sorted_clusters (RS := CounterSource.counter_source)
      0%Z Examples.grey_decoded 150 = c :: rest /\
    Forall (fun d => (size d <= size c)%nat) rest /\
    extract_colors (RS := CounterSource.counter_source)
      0%Z Examples.grey_image 5 20 150
    = inr (to_tuple (lab_to_rgb (centroid c)) :: palette).
Proof.
  refine (dominant_colour_first (RS := CounterSource.counter_source)
            0%Z Examples.grey_image 5 20 150 Examples.grey_decoded _ _ _ _).
  - vm_compute. reflexivity.
  - repeat split; vm_compute; discriminate.
  - vm_compute. lia.
  - unfold INT_MAX. lia.
Defined.

Lemma extract_colors_error_origin_witness :
  extract_colors (RS := CounterSource.counter_source)
    0%Z Examples.grey_image (-1) 20 150 = inl length_error.
Proof.
  refine (proj2 (proj2 (proj2 (extract_colors_error_origin
                                  (RS := CounterSource.counter_source)
                                  0%Z Examples.grey_image (-1) 20 150 _))
                  Examples.grey_decoded _ _) _).
  - unfold INT_MAX. lia.
  - vm_compute. reflexivity.
  - repeat split; vm_compute; discriminate.
  - split; [vm_compute; lia | lia].
Defined.

Lemma dark_image_insufficient_witness :
  extract_colors (RS := CounterSource.counter_source)
    0%Z Examples.dark_image 5 20 150 = inl insufficient_pixels.
Proof.
  refine (dark_image_insufficient (RS := CounterSource.counter_source)
            0%Z Examples.dark_image 5 20 150 Examples.dark_decoded _ _ _).
  - vm_compute. reflexivity.
  - repeat split; vm_compute; discriminate.
  - repeat constructor; cbn; lia.
Defined.

End ExtractExtras.

(** ** The extraction entry point for arrays *)

Module NumpyExtras.
Import Int Buffer KMeans Palette ColorSpace Props Numpy.
Import PaletteFacts KMeansFacts ExtractFacts PaletteExtras SamplerExtras.

Section WithRandom.
Context {RS : RandomSource}.

Lemma fill_unfold n st :
  fill n st =
  if decide (Z.of_nat (length st.1) < to_size_t n)%Z
  then fill n (fill_body st) else st.
Proof.
  rewrite fill_unfold_eq at 1. unfold fill_unfold.
  destruct (decide _); reflexivity.
Qed.

Lemma fill_body_spec st :
  exists c, (fill_body st).1 = st.1 ++ [c] /\ in_lab_box c.
Proof.
  unfold fill_body. cbv zeta. cbn [fst]. eexists. split; [reflexivity|].
  unfold in_lab_box. cbn [lab_L lab_a lab_b].
  repeat split; apply clamp_range; lra.
Qed.

Lemma fill_body_length st : length (fill_body st).1 = S (length st.1).
Proof.
  destruct (fill_body_spec st) as (c & -> & _).
  rewrite length_app. cbn [length]. lia.
Qed.

Lemma fill_iter n st :
  fill n st = Nat.iter (Z.to_nat (to_size_t n) - length st.1) fill_body st.
Proof.
  remember (Z.to_nat (to_size_t n) - length st.1)%nat as k eqn:Hk.
  revert st Hk. induction k as [|k IH]; intros st Hk.
  - rewrite fill_unfold. destruct (decide _); [lia | reflexivity].
  - rewrite fill_unfold. destruct (decide _); [|lia].
    rewrite Nat.iter_succ_r. apply IH. rewrite fill_body_length. lia.
Qed.

Lemma fill_iter_spec k st :
  exists more, (Nat.iter k fill_body st).1 = st.1 ++ more /\
               length more = k /\ Forall in_lab_box more.
Proof.
  induction k as [|k (more & IH & Hl & Hb)].
  - exists []. rewrite app_nil_r. repeat split. constructor.
  - rewrite Nat.iter_succ.
    destruct (fill_body_spec (Nat.iter k fill_body st)) as (c & -> & Hc).
    exists (more ++ [c]). rewrite IH, <- app_assoc. split; [reflexivity|].
    split; [rewrite length_app; cbn [length]; lia|].
    apply Forall_app. split; [exact Hb | now constructor].
Qed.

Lemma fill_spec n st :
  (Z.of_nat (length st.1) <= to_size_t n)%Z ->
  exists more,
    (fill n st).1 = st.1 ++ more /\
    Z.of_nat (length (fill n st).1) = to_size_t n /\
    Forall in_lab_box more.
Proof.
  intros Hlen. rewrite fill_iter.
  destruct (fill_iter_spec (Z.to_nat (to_size_t n) - length st.1) st)
    as (more & -> & Hl & Hb).
  exists more. split; [reflexivity|]. split; [|exact Hb].
  rewrite length_app, Hl. lia.
Qed.

(** The fill-up loop terminates with exactly [num_colors] colours when it
    starts with at most that many, and every colour it appends lies in the
    box [[0,100] x [-128,127] x [-128,127]]. *)
Theorem fill_completes n st :
  (Z.of_nat (length st.1) <= to_size_t n)%Z ->
  exists more,
    (fill n st).1 = st.1 ++ more /\
    Z.of_nat (length (fill n st).1) = to_size_t n /\
    Forall in_lab_box more.
Proof. exact (fill_spec n st). Qed.

End WithRandom.

Lemma fill_completes_witness :
  exists more,
    (fill (RS := CounterSource.counter_source) 3 ([mkLab 50 0 0], 0%Z)).1
    = [mkLab 50 0 0] ++ more /\
    Z.of_nat (length (fill (RS := CounterSource.counter_source) 3
                        ([mkLab 50 0 0], 0%Z)).1) = to_size_t 3 /\
    Forall in_lab_box more.
Proof.
  refine (fill_completes (RS := CounterSource.counter_source) 3
            ([mkLab 50 0 0], 0%Z) _).
  vm_compute. discriminate.
Defined.

End NumpyExtras.

(** ** Strided sampling of arrays *)

Module StrideExtras.
Import Int Buffer Props Numpy SamplerExtras.
#[local] Open Scope Z_scope.

Lemma stride_from_closed fuel : forall i n step,
  0 <= i -> 1 <= step -> n + step <= INT_MAX + 1 ->
  (Z.to_nat (n - i) <= fuel)%nat ->
  stride_from fuel i n step
  = map (fun j => i + Z.of_nat j * step)
        (seq 0 (Z.to_nat ((n - i + step - 1) / step))).
Proof.
  induction fuel as [|fuel IH]; intros i n step Hi Hs Hn Hf.
  - assert (n - i <= 0) by lia.
    assert ((n - i + step - 1) / step <= 0).
    { apply Z.lt_succ_r. apply Z.div_lt_upper_bound; lia. }
    replace (Z.to_nat ((n - i + step - 1) / step)) with 0%nat by lia.
    reflexivity.
  - cbn [stride_from]. destruct (Z.ltb_spec i n) as [Hlt|Hge].
    + unfold int_add. rewrite wrap32_id by (unfold INT_MAX in *; lia).
      rewrite IH by lia.
      assert (Hq : (n - i + step - 1) / step = (n - (i + step) + step - 1) / step + 1).
      { replace (n - i + step - 1) with ((n - (i + step) + step - 1) + 1 * step) by lia.
        rewrite Z.div_add by lia. reflexivity. }
      assert (0 <= (n - (i + step) + step - 1) / step) by (apply Z.div_pos; lia).
      rewrite Hq, Z2Nat.inj_add by lia.
      replace (Z.to_nat 1) with 1%nat by reflexivity.
      rewrite Nat.add_1_r. cbn [seq map].
      f_equal; [lia|]. rewrite <- seq_shift, map_map.
      apply map_ext. intros j. lia.
    + assert ((n - i + step - 1) / step <= 0).
      { apply Z.lt_succ_r. apply Z.div_lt_upper_bound; lia. }
      replace (Z.to_nat ((n - i + step - 1) / step)) with 0%nat by lia.
      reflexivity.
Qed.

Lemma stride_count n :
  0 <= n -> (n + Z.max 1 (Z.quot n 150) - 1) / Z.max 1 (Z.quot n 150) <= 299.
Proof.
  intros Hn. rewrite Z.quot_div_nonneg by lia.
  destruct (Z_lt_ge_dec n 150) as [Hlt|Hge].
  - rewrite (Z.div_small n 150) by lia. rewrite Z.max_l by lia.
    rewrite Z.div_1_r. lia.
  - assert (1 <= n / 150) by (apply Z.div_le_lower_bound; lia).
    rewrite Z.max_r by lia.
    set (s := n / 150) in *.
    assert (Hns : n < 150 * s + 150).
    { unfold s. pose proof (Z.mod_pos_bound n 150 ltac:(lia)).
      pose proof (Z.div_mod n 150 ltac:(lia)). lia. }
    apply Z.lt_succ_r. apply Z.div_lt_upper_bound; [lia|]. nia.
Qed.

Lemma strided_spec n :
  0 <= n <= 2000000000 ->
  let step := Z.max 1 (Z.quot n 150) in
  strided n = map (fun j => Z.of_nat j * step)
                  (seq 0 (Z.to_nat ((n + step - 1) / step)))
  /\ (length (strided n) <= 299)%nat.
Proof.
  intros Hn. cbv zeta. unfold strided.
  assert (Hq : 0 <= Z.quot n 150 /\ 150 * Z.quot n 150 <= n).
  { rewrite Z.quot_div_nonneg by lia. split; [apply Z.div_pos; lia|].
    apply Z.mul_div_le. lia. }
  rewrite stride_from_closed; try (unfold INT_MAX; lia).
  rewrite Z.sub_0_r. split.
  - apply map_ext. intros j. lia.
  - rewrite length_map, length_seq.
    pose proof (stride_count n ltac:(lia)). lia.
Qed.

(** The sampling loop of [extract_colors_from_numpy] over an axis of
    extent [n] visits the multiples of its step below [n], in increasing
    order, and never more than 299 positions. *)
Theorem strided_positions n :
  0 <= n <= 2000000000 ->
  let step := Z.max 1 (Z.quot n 150) in
  strided n = map (fun j => Z.of_nat j * step)
                  (seq 0 (Z.to_nat ((n + step - 1) / step)))
  /\ (length (strided n) <= 299)%nat.
Proof. exact (strided_spec n). Qed.

Lemma strided_positions_witness : (length (strided 1000) <= 299)%nat.
Proof.
  refine (proj2 (strided_positions 1000 _)). lia.
Defined.

(** Before the cap of 5000 applies, at most [299 * 299] samples are
    collected from an array, whatever its extents. *)
Theorem array_pixels_bounded a h w c :
  0 <= h <= 2000000000 -> 0 <= w <= 2000000000 ->
  (length (array_pixels a h w c) <= 299 * 299)%nat.
Proof.
  intros Hh Hw. unfold array_pixels.
  destruct (strided_spec h Hh) as [_ Hlh].
  destruct (strided_spec w Hw) as [_ Hlw].
  pose proof (length_flat_map_le
                (fun y => omap (fun x => array_pixel a w c x y) (strided w))
                (strided h) 299) as Hb.
  assert (Hrow : forall y, (length (omap (fun x => array_pixel a w c x y) (strided w))
                            <= 299)%nat).
  { intros y. pose proof (length_omap_le (fun x => array_pixel a w c x y) (strided w)).
    lia. }
  specialize (Hb Hrow). nia.
Qed.

Lemma array_pixels_bounded_witness :
  (length (array_pixels (buf Examples.grey_array) 1 10 3) <= 299 * 299)%nat.
Proof.
  refine (array_pixels_bounded (buf Examples.grey_array) 1 10 3 _ _); lia.
Defined.

End StrideExtras.

(** ** The array entry point on well-formed arrays *)

Module ArrayExtras.
Import Int Buffer KMeans Palette ColorSpace Props Numpy.
Import PaletteFacts KMeansFacts ExtractFacts PaletteExtras SamplerExtras.
Import SamplingFacts NumpyExtras StrideExtras.

Lemma strided_range n y :
  (0 <= n <= 2000000000)%Z -> y ∈ strided n -> (0 <= y < n)%Z.
Proof.
  intros Hn Hy. destruct (strided_spec n Hn) as [Heq _]. cbv zeta in Heq.
  rewrite Heq in Hy. clear Heq.
  set (step := Z.max 1 (Z.quot n 150)) in *.
  assert (Hs : (1 <= step)%Z) by (unfold step; lia).
  apply list_elem_of_In, in_map_iff in Hy as (j & <- & Hj).
  apply in_seq in Hj.
  assert (Hq : (0 <= (n + step - 1) / step)%Z) by (apply Z.div_pos; lia).
  assert (Hj' : (Z.of_nat j + 1 <= (n + step - 1) / step)%Z) by lia.
  pose proof (Z.mul_div_le (n + step - 1) step ltac:(lia)) as Hm.
  split; [lia | nia].
Qed.

Lemma forallb_elem {A} (f : A -> bool) l :
  (forall x, x ∈ l -> f x = true) -> forallb f l = true.
Proof.
  intros Hf. apply forallb_forall. intros x Hx. apply Hf.
  now apply list_elem_of_In.
Qed.

(** What a well-formed array gives to the entry point: the extents as
    [int]s, a [reserve] that does not throw, and reads inside the buffer. *)
Lemma array_fits_spec a :
  array_fits a ->
  wrap32 (shape a !!! 0%nat) = shape a !!! 0%nat /\
  wrap32 (shape a !!! 1%nat) = shape a !!! 1%nat /\
  wrap32 (shape a !!! 2%nat) = shape a !!! 2%nat /\
  reserve_throws (int_mul (shape a !!! 1%nat) (shape a !!! 0%nat)) = false /\
  array_reads_in_bounds (buf a) (shape a !!! 0%nat) (shape a !!! 1%nat)
                        (shape a !!! 2%nat) = true.
Proof.
  unfold array_fits. cbv zeta.
  set (h := shape a !!! 0%nat). set (w := shape a !!! 1%nat).
  set (c := shape a !!! 2%nat).
  intros (Hh & Hw & Hc & Hfit & Hbuf).
  assert (Hwh : (0 <= w * h <= INT_MAX)%Z) by (unfold INT_MAX in *; nia).
  split; [apply wrap32_id; unfold INT_MAX; lia|].
  split; [apply wrap32_id; unfold INT_MAX; lia|].
  split; [apply wrap32_id; unfold INT_MAX; lia|].
  split.
  - apply reserve_ok. unfold int_mul.
    rewrite wrap32_id by (unfold INT_MAX in *; lia). exact Hwh.
  - unfold array_reads_in_bounds.
    apply forallb_elem. intros y Hy. apply forallb_elem. intros x Hx.
    apply (strided_range h y Hh) in Hy. apply (strided_range w x Hw) in Hx.
    assert (Hp : (0 <= y * w + x <= w * h - 1)%Z) by nia.
    assert (Hq : (0 <= (y * w + x) * c <= h * w * c - c)%Z) by nia.
    unfold array_reads_ok, int_mul, int_add. cbv zeta.
    rewrite (wrap32_id (y * w)) by (unfold INT_MAX in *; nia).
    rewrite (wrap32_id (y * w + x)) by (unfold INT_MAX in *; lia).
    rewrite (wrap32_id ((y * w + x) * c)) by (unfold INT_MAX in *; lia).
    set (idx := ((y * w + x) * c)%Z) in *.
    rewrite !wrap32_id by (unfold INT_MAX in *; lia).
    assert (Hin : forall i, (0 <= i < c)%Z -> in_buffer (buf a) (idx + i) = true).
    { intros i Hi. apply in_buffer_spec. lia. }
    assert (H0 : in_buffer (buf a) idx = true) by (apply in_buffer_spec; lia).
    rewrite H0, (Hin 1%Z), (Hin 2%Z) by lia. cbn [andb].
    destruct (Z.eqb_spec c 4) as [H4|_]; [|reflexivity].
    cbn [negb orb]. apply Hin. lia.
Qed.

Section WithRandom.
Context {RS : RandomSource}.


(** The entry point on a well-formed array, past its checks. *)
Lemma from_numpy_unfold e a n md :
  ndim a = 3%Z -> array_fits a ->
  extract_colors_from_numpy e a n md =
  let lab_pixels := array_pixels (buf a) (shape a !!! 0%nat) (shape a !!! 1%nat)
                                 (shape a !!! 2%nat) in
  if (length lab_pixels <? 10)%nat then inl array_insufficient_pixels
  else
    let sub := subsample_lab e lab_pixels in
    let km := kmeans_lab sub.2 sub.1 8 30 in
    let clusters := sort_clusters km.1 in
    if reserve_throws n then inl array_length_error
    else
      let selected := phase1 clusters n md [] in
      let rd := random_device km.2 in
      let selected := (fill n (selected, seed_gen rd.1)).1 in
      inr (map (fun i => to_tuple (lab_to_rgb (selected !!! Z.to_nat i)))
               (range n)).
Proof.
  intros Hnd Hfit.
  destruct (array_fits_spec a Hfit) as (Hh & Hw & Hc & Hres & Hreads).
  assert (Hcb : negb (shape a !!! 2%nat =? 3)%Z && negb (shape a !!! 2%nat =? 4)%Z
                = false).
  { destruct Hfit as (_ & _ & [-> | ->] & _); reflexivity. }
  unfold extract_colors_from_numpy. cbv zeta.
  rewrite Hnd, Hh, Hw, Hc. cbn [Z.eqb Pos.eqb negb].
  rewrite Hcb, Hres, Hreads. reflexivity.
Qed.


(** The errors of [extract_colors_from_numpy].  An array that is not
    three-dimensional, or whose last extent is neither 3 nor 4, is an
    invalid argument.  Past these checks, [lab_pixels.reserve] throws
    [std::length_error] when the [int] product [width * height] is
    negative.  On a well-formed array, the insufficient-pixels error is
    raised exactly when fewer than 10 of the visited pixels survive the two
    filters, and [std::length_error] exactly when at least 10 survive and
    [num_colors] is negative. *)
Theorem from_numpy_errors e a n md :
  (- 2 ^ 31 <= n <= INT_MAX)%Z ->
  let h := wrap32 (shape a !!! 0%nat) in
  let w := wrap32 (shape a !!! 1%nat) in
  let c := wrap32 (shape a !!! 2%nat) in
  let kept := length (array_pixels (buf a) h w c) in
  (ndim a <> 3%Z ->
   extract_colors_from_numpy e a n md = inl (array_invalid_argument bad_ndim))
  /\ (ndim a = 3%Z -> c <> 3%Z -> c <> 4%Z ->
      extract_colors_from_numpy e a n md
      = inl (array_invalid_argument bad_array_channels))
  /\ (ndim a = 3%Z -> c = 3%Z \/ c = 4%Z -> (int_mul w h < 0)%Z ->
      extract_colors_from_numpy e a n md = inl array_length_error)
  /\ (ndim a = 3%Z -> array_fits a ->
      (extract_colors_from_numpy e a n md = inl array_insufficient_pixels
       <-> (kept < 10)%nat)
      /\ (extract_colors_from_numpy e a n md = inl array_length_error
          <-> (10 <= kept)%nat /\ (n < 0)%Z)).
Proof.
  intros Hn. cbv zeta. split; [|split; [|split]].
  - intros Hnd. unfold extract_colors_from_numpy.
    destruct (Z.eqb_spec (ndim a) 3) as [?|_]; [contradiction | reflexivity].
  - intros Hnd H3 H4. unfold extract_colors_from_numpy. cbv zeta.
    rewrite Hnd. cbn [Z.eqb Pos.eqb negb].
    destruct (Z.eqb_spec (wrap32 (shape a !!! 2%nat)) 3) as [?|_]; [contradiction|].
    destruct (Z.eqb_spec (wrap32 (shape a !!! 2%nat)) 4) as [?|_]; [contradiction|].
    reflexivity.
  - intros Hnd Hc Hneg. unfold extract_colors_from_numpy. cbv zeta.
    rewrite Hnd. cbn [Z.eqb Pos.eqb negb].
    assert (Hcb : negb (wrap32 (shape a !!! 2%nat) =? 3)%Z
                  && negb (wrap32 (shape a !!! 2%nat) =? 4)%Z = false).
    { destruct Hc as [-> | ->]; reflexivity. }
    rewrite Hcb. rewrite reserve_negative; [reflexivity|].
    split; [|exact Hneg]. unfold int_mul. unfold wrap32 at 1.
    pose proof (Z.mod_pos_bound
                  (wrap32 (shape a !!! 1%nat) * wrap32 (shape a !!! 0%nat) + 2 ^ 31)
                  (2 ^ 32) ltac:(lia)). lia.
  - intros Hnd Hfit.
    destruct (array_fits_spec a Hfit) as (Hh & Hw & Hc & _).
    rewrite Hh, Hw, Hc.
    rewrite (from_numpy_unfold e a n md Hnd Hfit). cbv zeta.
    destruct (Nat.ltb_spec (length (array_pixels (buf a) (shape a !!! 0%nat)
                               (shape a !!! 1%nat) (shape a !!! 2%nat))) 10)
      as [Hlt|Hge].
    + split; split; [auto | auto | discriminate | lia].
    + destruct (Z_lt_ge_dec n 0) as [Hneg|Hpos].
      * rewrite reserve_negative by lia.
        split; split; [discriminate | lia | auto | auto].
      * rewrite reserve_ok by lia.
        split; split; [discriminate | lia | discriminate | lia].
Qed.

End WithRandom.


Lemma from_numpy_errors_witness :
  extract_colors_from_numpy (RS := CounterSource.counter_source)
    0%Z (mkArray 2 [] []) 5 20 = inl (array_invalid_argument bad_ndim).
Proof.
  refine (proj1 (from_numpy_errors (RS := CounterSource.counter_source)
                   0%Z (mkArray 2 [] []) 5 20 _) _).
  - unfold INT_MAX. lia.
  - discriminate.
Defined.

End ArrayExtras.

(** ** The update step of K-Means *)

Module UpdateExtras.
Import Ciede2000 KMeans Props KMeansFacts KMeansExtras.
#[local] Open Scope nat_scope.

Section WithRandom.
Context {RS : RandomSource}.

Lemma finish_means pixels sizes sums g m :
  pixels <> [] ->
  let fin := foldl (finish_step pixels sizes) (sums, g) (seq 0 m) in
  length fin.1 = length sums /\
  forall j, j < length sums ->
    (j < m -> (0 < sizes !!! j -> fin.1 !!! j = lab_div (sums !!! j) (sizes !!! j))
              /\ (sizes !!! j = 0 -> fin.1 !!! j ∈ pixels))
    /\ (m <= j -> fin.1 !!! j = sums !!! j).
Proof.
  intros Hne. cbv zeta. induction m as [|m IH].
  - cbn [seq foldl fst]. split; [reflexivity|]. intros j Hj.
    split; [intros; lia | reflexivity].
  - rewrite seq_S, foldl_app. cbn [foldl Nat.add].
    destruct IH as [Hlen Hinv]. set (acc := foldl _ _ _) in *.
    unfold finish_step at 1 2 3 4. cbv zeta.
    destruct (decide (0 < sizes !!! m)) as [Hpos|Hzero]; cbn [fst snd].
    + rewrite length_alter. split; [exact Hlen|]. intros j Hj.
      destruct (Hinv j Hj) as [Hlo Hhi].
      destruct (decide (j = m)) as [->|Hjm].
      * rewrite list_lookup_total_alter_eq by lia.
        rewrite (Hhi ltac:(lia)).
        split; [|intros; lia]. intros _. split; [reflexivity | intros; lia].
      * rewrite list_lookup_total_alter_ne by auto.
        split; [intros; apply Hlo; lia | intros; apply Hhi; lia].
    + rewrite length_insert. split; [exact Hlen|]. intros j Hj.
      destruct (Hinv j Hj) as [Hlo Hhi].
      destruct (decide (j = m)) as [->|Hjm].
      * rewrite list_lookup_total_insert_eq by lia.
        split; [|intros; lia]. intros _.
        split; [intros; lia | intros _; now apply draw_pixel_elem].
      * rewrite list_lookup_total_insert_ne by auto.
        split; [intros; apply Hlo; lia | intros; apply Hhi; lia].
Qed.


End WithRandom.


End UpdateExtras.

(** ** Conservation of the populations *)

Module KMeansConservation.
Import Ciede2000 KMeans Props KMeansFacts KMeansExtras UpdateExtras.
#[local] Open Scope nat_scope.

Lemma members_spec assignments j n i :
  i ∈ members assignments j n <-> i < n /\ assignments !!! i = j.
Proof.
  unfold members. rewrite list_elem_of_filter, elem_of_seq. intuition lia.
Qed.

Section WithRandom.
Context {RS : RandomSource}.

(** When the main loop runs at all, the state it leaves is the state after
    one of its iterations, the last one that ran. *)
Lemma loop_last sched k pixels todo : forall iter st,
  (forall i, sched i ≡ₚ seq 0 (length pixels)) ->
  length (assignments st) = length pixels ->
  0 < todo ->
  exists st_in i,
    length (assignments st_in) = length pixels /\
    loop sched k pixels iter todo st = (iteration (sched i) k pixels st_in).1.
Proof.
  induction todo as [|todo IH]; intros iter st Hsched Hlen Htodo; [lia|].
  cbn [loop]. cbv zeta.
  destruct (iteration (sched iter) k pixels st).2 eqn:Hconv.
  - exists st, iter. split; [exact Hlen | reflexivity].
  - destruct todo as [|todo'].
    + exists st, iter. split; [exact Hlen | reflexivity].
    + apply IH; [exact Hsched | | lia].
      apply iteration_assignments_length; [apply Hsched | exact Hlen].
Qed.

(** What one iteration leaves for cluster [j]: its population is the
    number of samples that the assignment pass gave to [j], and a cluster
    without samples has been reseeded with one of the samples. *)
Lemma iteration_cluster order k pixels st j :
  pixels <> [] ->
  order ≡ₚ seq 0 (length pixels) ->
  length (assignments st) = length pixels ->
  j < k ->
  let st' := (iteration order k pixels st).1 in
  let asg := map (closest (centroids st) k) pixels in
  cluster_sizes st' !!! j = length (members asg j (length pixels)) /\
  (cluster_sizes st' !!! j = 0 -> centroids st' !!! j ∈ pixels).
Proof.
  intros Hne Hperm Hlen Hj. cbv zeta. unfold iteration. cbv zeta.
  cbn [fst assignments cluster_sizes centroids].
  rewrite (assign_pass_map _ _ _ _ _ Hperm Hlen).
  set (asg := map _ pixels).
  destruct (accumulate_members k pixels asg (length pixels) j Hj)
    as (Ha1 & Ha2 & Ha3 & _).
  fold (accumulate k pixels asg) in Ha1, Ha2, Ha3.
  unfold finish_centroids.
  destruct (finish_means pixels (accumulate k pixels asg).2
              (accumulate k pixels asg).1 (gen st) k Hne) as [_ Hf].
  destruct (Hf j ltac:(lia)) as [Hlo _]. destruct (Hlo Hj) as [_ Hseed].
  split; [exact Ha3 | exact Hseed].
Qed.

(** C9: for every non-empty sample list and every [k >= 1], when the main
    loop runs (its bound [max_iters] is at least 1; both callers pass 30),
    the populations of the [k] clusters that [kmeans_lab] returns sum to
    the number of samples.  They are the counts of the final assignment
    pass, which gives every sample to exactly one cluster; and a cluster
    left empty by that pass, which the update step reseeds with one of the
    samples, is reported with population 0. *)
Theorem kmeans_populations_conserved e pixels k max_iters :
  pixels <> [] -> (1 <= k)%Z -> (1 <= max_iters)%Z ->
  let clusters := (kmeans_lab e pixels k max_iters).1 in
  let n := length pixels in
  length clusters = Z.to_nat k /\
  sum_list (map size clusters) = n /\
  exists final_centroids,
    let asg := map (closest final_centroids (Z.to_nat k)) pixels in
    (forall i, i < n ->
       exists j, j < Z.to_nat k /\ i ∈ members asg j n /\
                 forall j', i ∈ members asg j' n -> j' = j) /\
    (forall j c, clusters !! j = Some c ->
       size c = length (members asg j n) /\
       (members asg j n = [] -> size c = 0 /\ centroid c ∈ pixels)).
Proof.
  intros Hne Hk Hit. cbv zeta. unfold kmeans_lab, kmeans_lab_omp.
  destruct (decide _) as [[?|?]|_]; [congruence | lia |].
  cbv zeta. cbn [fst].
  set (g := seed_gen _). set (K := Z.to_nat k).
  assert (HK : 0 < K) by (unfold K; lia).
  destruct (kmeans_seeded_post (sequential pixels) g pixels K max_iters
              Hne HK Hit (sequential_schedule pixels)) as (Hlen & Hsum & _).
  split; [exact Hlen|]. split; [exact Hsum|].
  unfold kmeans_seeded in *. cbv zeta in *.
  set (st0 := mkState _ _ _ _) in *.
  destruct (loop_last (sequential pixels) K pixels (Z.to_nat max_iters) 0 st0
              (sequential_schedule pixels))
    as (st_in & it & Hlen_in & Hloop).
  { apply length_replicate. }
  { lia. }
  rewrite Hloop in *. clear Hloop.
  exists (centroids st_in). cbv zeta. split.
  - intros i Hi. exists (map (closest (centroids st_in) K) pixels !!! i).
    split; [now apply closest_assignments|]. split.
    + apply members_spec. split; [exact Hi | reflexivity].
    + intros j' Hj'. apply members_spec in Hj' as [_ <-]. reflexivity.
  - intros j c Hc. rewrite map_fmap, list_lookup_fmap in Hc.
    destruct (seq 0 K !! j) as [j0|] eqn:Hj; [|discriminate].
    apply lookup_seq in Hj as [-> Hj]. cbn in Hc. injection Hc as <-.
    cbn [size centroid].
    destruct (iteration_cluster (sequential pixels it) K pixels st_in j Hne
                (sequential_schedule pixels it) Hlen_in Hj) as [Hsize Hseed].
    split; [exact Hsize|]. intros Hnil.
    assert (Hz : cluster_sizes (iteration (sequential pixels it) K pixels st_in).1
                 !!! j = 0).
    { rewrite Hsize, Hnil. reflexivity. }
    split; [exact Hz | exact (Hseed Hz)].
Qed.

End WithRandom.

Lemma kmeans_populations_conserved_witness :
  sum_list (map size (kmeans_lab (RS := CounterSource.counter_source)
                        0%Z Examples.two_samples 8 30).1)
  = length Examples.two_samples.
Proof.
  refine (proj1 (proj2 (kmeans_populations_conserved
                          (RS := CounterSource.counter_source)
                          0%Z Examples.two_samples 8 30 _ _ _))).
  - discriminate.
  - lia.
  - lia.
Defined.

End KMeansConservation.
